(** * Howitzer simulator: ballistic core

    A shallow embedding of the numeric core of the M777 howitzer simulator
    (physics.h / physics.cpp, angle.h / angle.cpp, position, velocity,
    acceleration, projectile and howitzer) together with the properties its
    specification states about it, and of the input and trail handling of
    the simulator (simulation.h / simulation.cpp) with further properties
    read off the code.

    Conventions of the embedding:
    - a C++ [double] is a real number ([R]); comparisons are the decidable
      comparisons of the reals, [M_PI] is [PI], [sqrt], [sin], [cos] are the
      real functions.  Rounding is outside this model;
    - a failed [assert] aborts the program: a function whose body (or whose
      callees) assert returns [option], [None] being the abort;
    - an object mutated by a method is passed in and returned;
    - the [std::list] flight path is a [list] in the same order
      ([push_back] appends at the end, [back] is the last element);
    - a C array with its length ([const Mapping mapping[], int numMapping])
      is a [list]; [int] indices are [Z], integer division is [Z.quot]. *)

From Stdlib Require Import Reals Lra Lia ZArith List Bool Sorted.
From Equations Require Import Equations.
Import ListNotations.

Open Scope R_scope.

(** ** Abort-on-assert as an error monad *)

Definition ret {A : Type} (a : A) : option A := Some a.

Definition bind {A B : Type} (m : option A) (k : A -> option B) : option B :=
  match m with
  | Some a => k a
  | None => None
  end.

(** [assert(c)]: continue when the condition holds, abort otherwise. *)
Definition assert {P Q : Prop} (c : {P} + {Q}) : option unit :=
  if c then Some tt else None.

Notation "x <- m ;; k" := (bind m (fun x => k))
  (at level 61, m at next level, right associativity).
Notation "m ;;; k" := (bind m (fun _ => k))
  (at level 61, right associativity).

(** C++ [a >= b] and [a > b] on doubles, as decisions. *)
Definition Rge_dec' (a b : R) : {b <= a} + {a < b} := Rle_lt_dec b a.
Definition Rgt_dec' (a b : R) : {b < a} + {a <= b} := Rlt_le_dec b a.
Definition Rneq_dec' (a b : R) : {a <> b} + {a = b} :=
  match Req_dec_T a b with
  | left e => right e
  | right n => left n
  end.

(** ** physics.h / physics.cpp *)

Module Physics.

(** [struct Mapping { double domain; double range; }] *)
Record Mapping : Type := mkMapping { domain : R; range : R }.

(** [mapping[i]]; reading outside the array is undefined in C++, the
    default constructed [Mapping(0.0, 0.0)] stands for it here.  The table
    lookup below only reads indices in [0, numMapping). *)
Definition at_ (mapping : list Mapping) (i : Z) : Mapping :=
  nth (Z.to_nat i) mapping (mkMapping 0 0).

(** [areaFromRadius] *)
Definition areaFromRadius (radius : R) : option R :=
  assert (Rge_dec' radius 0.0) ;;;
  ret (PI * (radius * radius)).

(** [forceFromDrag] *)
Definition forceFromDrag (density drag radius velocity : R) : option R :=
  assert (Rge_dec' density 0.0) ;;;
  assert (Rge_dec' drag 0.0) ;;;
  assert (Rge_dec' radius 0.0) ;;;
  assert (Rge_dec' velocity 0.0) ;;;
  area <- areaFromRadius radius ;;
  ret (0.5 * density * drag * area * (velocity * velocity)).

(** [accelerationFromForce] *)
Definition accelerationFromForce (force mass : R) : option R :=
  assert (Rgt_dec' mass 0.0) ;;;
  ret (force / mass).

(** [velocityFromAcceleration] *)
Definition velocityFromAcceleration (acceleration time : R) : option R :=
  assert (Rge_dec' time 0.0) ;;;
  ret (acceleration * time).

(** [linearInterpolation(d0, r0, d1, r1, d)], the two-point overload. *)
Definition linearInterpolation (d0 r0 d1 r1 d : R) : option R :=
  assert (Rneq_dec' d1 d0) ;;;
  ret (r0 + (r1 - r0) * (d - d0) / (d1 - d0)).

(** The [while (left < right - 1)] loop of the table overload: the binary
    search for the interval that contains [d].  It returns the final
    [(left, right)].  The [int] variables stay between the initial [left]
    and [right], so [left + (right - left) / 2] cannot overflow and no
    wrap-around is written out. *)
Equations? bsearch (mapping : list Mapping) (d : R) (left_ right_ : Z) : Z * Z
  by wf (Z.to_nat (right_ - left_)) lt :=
bsearch mapping d left_ right_ with Z_lt_dec left_ (right_ - 1) := {
  | left _ with Rle_dec (domain (at_ mapping (left_ + Z.quot (right_ - left_) 2))) d := {
      | left _ => bsearch mapping d (left_ + Z.quot (right_ - left_) 2) right_
      | right _ => bsearch mapping d left_ (left_ + Z.quot (right_ - left_) 2) }
  | right _ => (left_, right_) }.
Proof.
  all: rewrite Z.quot_div_nonneg by lia.
  all: assert (Hq : (1 <= (right_ - left_) / 2 < right_ - left_)%Z)
         by (split; [apply Z.div_le_lower_bound | apply Z.div_lt_upper_bound]; lia).
  all: lia.
Qed.

(** [linearInterpolation(mapping, numMapping, domain)], the table overload;
    [numMapping] is the length of the array (a list is never [nullptr], so
    only the second assertion can fail). *)
Definition linearInterpolationMapping (mapping : list Mapping) (d : R) : option R :=
  let numMapping := Z.of_nat (length mapping) in
  assert (Z_gt_dec numMapping 0) ;;;
  if Rle_dec d (domain (at_ mapping 0)) then
    ret (range (at_ mapping 0))
  else if Rge_dec' d (domain (at_ mapping (numMapping - 1))) then
    ret (range (at_ mapping (numMapping - 1)))
  else
    let '(left_, right_) := bsearch mapping d 0 (numMapping - 1) in
    linearInterpolation (domain (at_ mapping left_)) (range (at_ mapping left_))
                        (domain (at_ mapping right_)) (range (at_ mapping right_)) d.

(** Standard gravity values at different altitudes. *)
Definition gravityMapping : list Mapping :=
  [
    mkMapping 0.0 9.807; mkMapping 1000.0 9.804; mkMapping 2000.0 9.801;
    mkMapping 3000.0 9.797; mkMapping 4000.0 9.794; mkMapping 5000.0 9.791;
    mkMapping 6000.0 9.788; mkMapping 7000.0 9.785; mkMapping 8000.0 9.782;
    mkMapping 9000.0 9.779; mkMapping 10000.0 9.776; mkMapping 15000.0 9.761;
    mkMapping 20000.0 9.745; mkMapping 25000.0 9.730; mkMapping 30000.0 9.715;
    mkMapping 40000.0 9.684; mkMapping 50000.0 9.654; mkMapping 60000.0 9.624;
    mkMapping 70000.0 9.594; mkMapping 80000.0 9.564
  ].

(** [gravityFromAltitude] *)
Definition gravityFromAltitude (altitude : R) : option R :=
  linearInterpolationMapping gravityMapping altitude.

(** Standard air density values at different altitudes (kg/m^3). *)
Definition densityMapping : list Mapping :=
  [
    mkMapping 0.0 1.225; mkMapping 1000.0 1.112; mkMapping 2000.0 1.007;
    mkMapping 3000.0 0.9093; mkMapping 4000.0 0.8194; mkMapping 5000.0 0.7364;
    mkMapping 6000.0 0.6601; mkMapping 7000.0 0.5900; mkMapping 8000.0 0.5258;
    mkMapping 9000.0 0.4671; mkMapping 10000.0 0.4135; mkMapping 15000.0 0.1948;
    mkMapping 20000.0 0.08891; mkMapping 25000.0 0.04008; mkMapping 30000.0 0.01841;
    mkMapping 40000.0 0.003996; mkMapping 50000.0 0.001027; mkMapping 60000.0 0.0003097;
    mkMapping 70000.0 0.0000828; mkMapping 80000.0 0.0000185
  ].

(** [densityFromAltitude] *)
Definition densityFromAltitude (altitude : R) : option R :=
  linearInterpolationMapping densityMapping altitude.

(** Speed of sound values at different altitudes (m/s). *)
Definition speedSoundMapping : list Mapping :=
  [
    mkMapping 0.0 340.0; mkMapping 1000.0 336.0; mkMapping 2000.0 332.0;
    mkMapping 3000.0 328.0; mkMapping 4000.0 324.0; mkMapping 5000.0 320.0;
    mkMapping 6000.0 316.0; mkMapping 7000.0 312.0; mkMapping 8000.0 308.0;
    mkMapping 9000.0 303.0; mkMapping 10000.0 299.0; mkMapping 15000.0 295.0;
    mkMapping 20000.0 295.0; mkMapping 25000.0 295.0; mkMapping 30000.0 305.0;
    mkMapping 40000.0 324.0; mkMapping 50000.0 337.0; mkMapping 60000.0 319.0;
    mkMapping 70000.0 289.0; mkMapping 80000.0 269.0
  ].

(** [speedSoundFromAltitude] *)
Definition speedSoundFromAltitude (altitude : R) : option R :=
  linearInterpolationMapping speedSoundMapping altitude.

(** Drag coefficient values for the M795 projectile at different Mach numbers. *)
Definition dragMapping : list Mapping :=
  [
    mkMapping 0.0 0.0; mkMapping 0.1 0.0543; mkMapping 0.3 0.1629;
    mkMapping 0.5 0.1659; mkMapping 0.7 0.2031; mkMapping 0.89 0.2597;
    mkMapping 0.92 0.3010; mkMapping 0.96 0.3287; mkMapping 0.98 0.4002;
    mkMapping 1.00 0.4258; mkMapping 1.02 0.4335; mkMapping 1.06 0.4483;
    mkMapping 1.24 0.4064; mkMapping 1.53 0.3663; mkMapping 1.99 0.2897;
    mkMapping 2.87 0.2297; mkMapping 2.89 0.2306; mkMapping 5.00 0.2656
  ].

(** [dragFromMach] *)
Definition dragFromMach (speedMach : R) : option R :=
  linearInterpolationMapping dragMapping speedMach.

(** [machFromSpeed] *)
Definition machFromSpeed (speed altitude : R) : option R :=
  speedSound <- speedSoundFromAltitude altitude ;;
  assert (Rgt_dec' speedSound 0.0) ;;;
  ret (speed / speedSound).

End Physics.

Import Physics.

(** ** The C library functions the sources call *)

(** Truncation toward zero of a real number. *)
Definition trunc (x : R) : Z :=
  if Rle_dec 0 x then Int_part x else (- Int_part (- x))%Z.

(** [fmod(x, y)] for [y <> 0]: [x - n * y] where [n] is [x / y] with its
    fractional part truncated, so the result has the sign of [x]. *)
Definition fmod (x y : R) : R := x - IZR (trunc (x / y)) * y.


(** [a < b] and [a <= b] as [bool]s, for conditions combined with [&&]
    and [||]. *)
Definition Rltb (a b : R) : bool := if Rlt_dec a b then true else false.
Definition Rleb (a b : R) : bool := if Rle_dec a b then true else false.

(** ** angle.h / angle.cpp *)

Record Angle : Type := mkAngle { radians : R }.

(** [Angle::normalize]: normalize to the range [0, 2 PI). *)
Definition Angle_normalize (radians : R) : R :=
  let radians := fmod radians (2.0 * PI) in
  if Rlt_dec radians 0.0 then radians + 2.0 * PI else radians.

Definition Angle_convertToDegrees (radian : R) : R :=
  Angle_normalize radian * (180.0 / PI).

Definition Angle_convertToRadians (degrees : R) : R :=
  Angle_normalize (degrees * (PI / 180.0)).

(** Constructors: [Angle()], [Angle(const Angle&)], [Angle(double degrees)]. *)
Definition Angle_default : Angle := mkAngle 0.0.
Definition Angle_copy (rhs : Angle) : Angle := mkAngle (radians rhs).
Definition Angle_ofDegrees (degrees : R) : Angle :=
  mkAngle (Angle_convertToRadians degrees).

(** Getters. *)
Definition Angle_getRadians (a : Angle) : R := radians a.
Definition Angle_getDegrees (a : Angle) : R := Angle_convertToDegrees (radians a).
Definition Angle_isRight (a : Angle) : bool :=
  Rltb 0 (radians a) && Rltb (radians a) PI.
Definition Angle_isLeft (a : Angle) : bool :=
  Rltb PI (radians a) && Rltb (radians a) (2.0 * PI).

(** Setters; the receiver is the last argument and the updated object is
    returned. *)
Definition Angle_setDegrees (degrees : R) (a : Angle) : Angle :=
  mkAngle (Angle_convertToRadians degrees).
Definition Angle_add (delta : R) (a : Angle) : Angle :=
  mkAngle (Angle_normalize (radians a + delta)).





(** ** acceleration.h / acceleration.cpp *)

Record Acceleration : Type := mkAcceleration { ddx : R; ddy : R }.

Definition Acceleration_getDDX (a : Acceleration) : R := ddx a.
Definition Acceleration_getDDY (a : Acceleration) : R := ddy a.

(** [operator+] *)
Definition Acceleration_plus (a rhs : Acceleration) : Acceleration :=
  mkAcceleration (ddx a + ddx rhs) (ddy a + ddy rhs).

(** ** velocity.h / velocity.cpp *)

Record Velocity : Type := mkVelocity { dx : R; dy : R }.

Definition Velocity_default : Velocity := mkVelocity 0.0 0.0.
Definition Velocity_getDX (v : Velocity) : R := dx v.
Definition Velocity_getDY (v : Velocity) : R := dy v.

(** [Velocity::getSpeed] *)
Definition Velocity_getSpeed (v : Velocity) : R :=
  sqrt ((dx v * dx v) + (dy v * dy v)).

(** [Velocity::set(const Angle&, double magnitude)] *)
Definition Velocity_set (angle : Angle) (magnitude : R) (v : Velocity)
  : option Velocity :=
  assert (Rge_dec' magnitude 0.0) ;;;
  ret (mkVelocity (magnitude * sin (Angle_getRadians angle))
                  (magnitude * cos (Angle_getRadians angle))).

(** [Velocity::add(const Acceleration&, double time)]: v = v0 + a t *)
Definition Velocity_add (acceleration : Acceleration) (time : R) (v : Velocity)
  : option Velocity :=
  assert (Rge_dec' time 0.0) ;;;
  ret (mkVelocity (dx v + Acceleration_getDDX acceleration * time)
                  (dy v + Acceleration_getDDY acceleration * time)).

(** ** position.h / position.cpp *)

Record Position : Type := mkPosition { x : R; y : R }.

Definition Position_default : Position := mkPosition 0.0 0.0.
Definition Position_getMetersX (p : Position) : R := x p.
Definition Position_getMetersY (p : Position) : R := y p.

(** [Position::add(const Acceleration&, const Velocity&, double t)]:
    s = s0 + v t + 1/2 a t^2 *)
Definition Position_add (a : Acceleration) (v : Velocity) (t : R) (p : Position)
  : option Position :=
  assert (Rge_dec' t 0.0) ;;;
  ret (mkPosition
         (x p + (Velocity_getDX v * t + 0.5 * Acceleration_getDDX a * t * t))
         (y p + (Velocity_getDY v * t + 0.5 * Acceleration_getDDY a * t * t))).

(** ** projectile.h / projectile.cpp *)

(** Default M795 projectile specifications. *)
Definition DEFAULT_PROJECTILE_WEIGHT : R := 46.7.
Definition DEFAULT_PROJECTILE_RADIUS : R := 0.077545.

(** One moment in the path of the projectile. *)
Record PositionVelocityTime : Type :=
  mkPVT { pos : Position; v : Velocity; t : R }.

Definition PositionVelocityTime_default : PositionVelocityTime :=
  mkPVT Position_default Velocity_default 0.0.

Record Projectile : Type := mkProjectile {
  mass : R;                                 (* weight of the projectile in kg *)
  radius : R;                               (* radius of projectile in meters *)
  isActive : bool;                          (* whether it is currently flying *)
  flightPath : list PositionVelocityTime    (* complete trajectory history *)
}.

(** [flightPath.back()] and [flightPath.front()]; both are undefined on an
    empty list and are only called on a non-empty one. *)
Definition back (l : list PositionVelocityTime) : PositionVelocityTime :=
  last l PositionVelocityTime_default.
Definition front (l : list PositionVelocityTime) : PositionVelocityTime :=
  hd PositionVelocityTime_default l.

(** [flightPath.empty()] *)
Definition empty (l : list PositionVelocityTime) : bool :=
  match l with
  | [] => true
  | _ :: _ => false
  end.

(** The constructors [Projectile()] and [Projectile(double mass, double radius)]. *)
Definition Projectile_default : Projectile :=
  mkProjectile DEFAULT_PROJECTILE_WEIGHT DEFAULT_PROJECTILE_RADIUS false [].
Definition Projectile_custom (mass radius : R) : Projectile :=
  mkProjectile mass radius false [].

(** [Projectile::reset] *)
Definition Projectile_reset (p : Projectile) : Projectile :=
  mkProjectile DEFAULT_PROJECTILE_WEIGHT DEFAULT_PROJECTILE_RADIUS false [].

(** [Projectile::fire] *)
Definition Projectile_fire (position : Position) (angle : Angle)
    (muzzleVelocity time : R) (p : Projectile) : option Projectile :=
  assert (Rge_dec' muzzleVelocity 0.0) ;;;
  assert (Rge_dec' time 0.0) ;;;
  let pvt := mkPVT position Velocity_default time in
  vel <- Velocity_set angle muzzleVelocity (v pvt) ;;
  let pvt := mkPVT (pos pvt) vel (t pvt) in
  ret (mkProjectile (mass p) (radius p) true [pvt]).

(** [Projectile::calculateDragAcceleration] *)
Definition Projectile_calculateDragAcceleration (p : Projectile)
    (pvt : PositionVelocityTime) : option Acceleration :=
  let altitude := Rmax 0.0 (Position_getMetersY (pos pvt)) in
  let speed := Velocity_getSpeed (v pvt) in
  if Req_dec_T speed 0.0 then ret (mkAcceleration 0.0 0.0) else
  density <- densityFromAltitude altitude ;;
  speedSound <- speedSoundFromAltitude altitude ;;
  let machNumber := speed / speedSound in
  dragCoeff <- dragFromMach machNumber ;;
  dragForce <- forceFromDrag density dragCoeff (radius p) speed ;;
  dragAccelMagnitude <- accelerationFromForce dragForce (mass p) ;;
  let velX := Velocity_getDX (v pvt) in
  let velY := Velocity_getDY (v pvt) in
  let dragAccelX := - dragAccelMagnitude * (velX / speed) in
  let dragAccelY := - dragAccelMagnitude * (velY / speed) in
  ret (mkAcceleration dragAccelX dragAccelY).

(** [Projectile::calculateTotalAcceleration] *)
Definition Projectile_calculateTotalAcceleration (p : Projectile)
    (pvt : PositionVelocityTime) : option Acceleration :=
  let altitude := Rmax 0.0 (Position_getMetersY (pos pvt)) in
  gravity <- gravityFromAltitude altitude ;;
  let gravityAccel := mkAcceleration 0.0 (- gravity) in
  dragAccel <- Projectile_calculateDragAcceleration p pvt ;;
  ret (Acceleration_plus gravityAccel dragAccel).

(** [Projectile::advance] *)
Definition Projectile_advance (simulationTime : R) (p : Projectile)
  : option Projectile :=
  if negb (isActive p) || empty (flightPath p) then ret p else
  let currentPvt := back (flightPath p) in
  let deltaTime := simulationTime - t currentPvt in
  if Rle_dec deltaTime 0.0 then ret p else
  totalAcceleration <- Projectile_calculateTotalAcceleration p currentPvt ;;
  newPos <- Position_add totalAcceleration (v currentPvt) deltaTime (pos currentPvt) ;;
  newV <- Velocity_add totalAcceleration deltaTime (v currentPvt) ;;
  let newPvt := mkPVT newPos newV simulationTime in
  let path := flightPath p ++ [newPvt] in
  if Rlt_dec (Position_getMetersY (pos newPvt)) 0.0
  then ret (mkProjectile (mass p) (radius p) false path)
  else ret (mkProjectile (mass p) (radius p) (isActive p) path).

(** [Projectile::isValidState] *)
Definition Projectile_isValidState (p : Projectile) : bool :=
  Rltb 0.0 (mass p) && Rltb 0.0 (radius p).

(** [Projectile::getPosition] and [Projectile::getVelocity] *)
Definition Projectile_getPosition (p : Projectile) : Position :=
  if negb (empty (flightPath p)) then pos (back (flightPath p))
  else Position_default.
Definition Projectile_getVelocity (p : Projectile) : Velocity :=
  if negb (empty (flightPath p)) then v (back (flightPath p))
  else Velocity_default.

Definition Projectile_isFlying (p : Projectile) : bool :=
  isActive p && negb (empty (flightPath p)).

(** [Projectile::getFlightTime] *)
Definition Projectile_getFlightTime (p : Projectile) : R :=
  if (length (flightPath p) <? 2)%nat then 0.0
  else t (back (flightPath p)) - t (front (flightPath p)).

(** [Projectile::getMaxAltitude] *)
Definition Projectile_getMaxAltitude (p : Projectile) : R :=
  fold_left (fun maxAlt pvt => Rmax maxAlt (Position_getMetersY (pos pvt)))
            (flightPath p) 0.0.

(** [Projectile::getTotalDistance] *)
Definition Projectile_getTotalDistance (p : Projectile) : R :=
  if (length (flightPath p) <? 2)%nat then 0.0
  else Rabs (Position_getMetersX (pos (back (flightPath p)))
             - Position_getMetersX (pos (front (flightPath p)))).

(** [Projectile::getCurrentSpeed] *)
Definition Projectile_getCurrentSpeed (p : Projectile) : R :=
  if negb (empty (flightPath p)) then Velocity_getSpeed (v (back (flightPath p)))
  else 0.0.

(** [Projectile::getCurrentAltitude] *)
Definition Projectile_getCurrentAltitude (p : Projectile) : R :=
  if negb (empty (flightPath p))
  then Rmax 0.0 (Position_getMetersY (pos (back (flightPath p))))
  else 0.0.

(** [getMass], [getRadius], [setMass], [setRadius] *)
Definition Projectile_getMass (p : Projectile) : R := mass p.
Definition Projectile_getRadius (p : Projectile) : R := radius p.
Definition Projectile_setMass (newMass : R) (p : Projectile) : Projectile :=
  mkProjectile (if Rgt_dec' newMass 0.0 then newMass else mass p)
               (radius p) (isActive p) (flightPath p).
Definition Projectile_setRadius (newRadius : R) (p : Projectile) : Projectile :=
  mkProjectile (mass p)
               (if Rgt_dec' newRadius 0.0 then newRadius else radius p)
               (isActive p) (flightPath p).

(** ** howitzer.h *)

(** Default M777 howitzer specifications. *)
Definition DEFAULT_MUZZLE_VELOCITY : R := 827.00.
Definition DEFAULT_ELEVATION_ANGLE : R := 45.0.
Definition MIN_ELEVATION_ANGLE : R := 0.0.
Definition MAX_ELEVATION_ANGLE : R := 85.0.

Record Howitzer : Type := mkHowitzer {
  position : Position;       (* position of the howitzer *)
  muzzleVelocity : R;        (* muzzle velocity in m/s *)
  elevation : Angle;         (* elevation angle (0 = up, positive = right) *)
  lastFireTime : R;          (* time of last firing *)
  roundsFired : Z            (* total rounds fired *)
}.

Definition Howitzer_default : Howitzer :=
  mkHowitzer Position_default DEFAULT_MUZZLE_VELOCITY
             (Angle_ofDegrees DEFAULT_ELEVATION_ANGLE) (-1.0) 0.
Definition Howitzer_custom (muzzleVel elevAngle : R) : Howitzer :=
  mkHowitzer Position_default muzzleVel (Angle_ofDegrees elevAngle) (-1.0) 0.

Definition Howitzer_getElevation (h : Howitzer) : Angle := elevation h.

(** The elevation field updated, everything else kept. *)
Definition withElevation (e : Angle) (h : Howitzer) : Howitzer :=
  mkHowitzer (position h) (muzzleVelocity h) e (lastFireTime h) (roundsFired h).

(** [Howitzer::constrainElevation] *)
Definition Howitzer_constrainElevation (h : Howitzer) : Howitzer :=
  let degrees := Angle_getDegrees (elevation h) in
  if Rlt_dec degrees MIN_ELEVATION_ANGLE then
    withElevation (Angle_setDegrees MIN_ELEVATION_ANGLE (elevation h)) h
  else if Rgt_dec' degrees MAX_ELEVATION_ANGLE then
    withElevation (Angle_setDegrees MAX_ELEVATION_ANGLE (elevation h)) h
  else h.

Definition Howitzer_setElevationDegrees (degrees : R) (h : Howitzer) : Howitzer :=
  Howitzer_constrainElevation (withElevation (Angle_setDegrees degrees (elevation h)) h).

(** [Howitzer::rotate] *)
Definition Howitzer_rotate (radians : R) (h : Howitzer) : Howitzer :=
  let deltaeDegrees := radians * (180.0 / PI) in
  let currentDegrees := Angle_getDegrees (elevation h) in
  let newDegrees := currentDegrees + deltaeDegrees in
  if Rleb MIN_ELEVATION_ANGLE newDegrees && Rleb newDegrees MAX_ELEVATION_ANGLE then
    withElevation (Angle_add radians (elevation h)) h
  else if Rltb newDegrees MIN_ELEVATION_ANGLE then
    withElevation (Angle_setDegrees MIN_ELEVATION_ANGLE (elevation h)) h
  else if Rltb MAX_ELEVATION_ANGLE newDegrees then
    withElevation (Angle_setDegrees MAX_ELEVATION_ANGLE (elevation h)) h
  else h.

(** [Howitzer::raise] *)
Definition Howitzer_raise (radians : R) (h : Howitzer) : Howitzer :=
  let deltaeDegrees := radians * (180.0 / PI) in
  let currentDegrees := Angle_getDegrees (elevation h) in
  let actualDelta :=
    if Angle_isRight (elevation h) then - deltaeDegrees else deltaeDegrees in
  let newDegrees := currentDegrees + actualDelta in
  if Rleb MIN_ELEVATION_ANGLE newDegrees && Rleb newDegrees MAX_ELEVATION_ANGLE then
    if Angle_isRight (elevation h)
    then withElevation (Angle_add (- radians) (elevation h)) h
    else withElevation (Angle_add radians (elevation h)) h
  else if Rltb newDegrees MIN_ELEVATION_ANGLE then
    withElevation (Angle_setDegrees MIN_ELEVATION_ANGLE (elevation h)) h
  else if Rltb MAX_ELEVATION_ANGLE newDegrees then
    withElevation (Angle_setDegrees MAX_ELEVATION_ANGLE (elevation h)) h
  else h.

(** ** angle.cpp: comparison and shortest rotation *)

(** [operator==] and [operator!=] of [Angle].  Every source file reaches
    <math.h> through angle.h, so [abs] on a [double] is the floating-point
    overload: [Rabs]. *)
Definition Angle_eqb (a rhs : Angle) : bool :=
  Rltb (Rabs (radians a - radians rhs)) 1e-6.
Definition Angle_neqb (a rhs : Angle) : bool := negb (Angle_eqb a rhs).





(** ** acceleration.cpp: the remaining members *)

(** [Acceleration::getMagnitude] *)
Definition Acceleration_getMagnitude (a : Acceleration) : R :=
  sqrt (ddx a * ddx a + ddy a * ddy a).



Definition Acceleration_isZero (a : Acceleration) : bool :=
  Rltb (Rabs (ddx a)) 1e-10 && Rltb (Rabs (ddy a)) 1e-10.

(** ** velocity.cpp: the remaining members *)





(** [Velocity::isZero] *)
Definition Velocity_isZero (v : Velocity) : bool :=
  Rltb (Rabs (dx v)) 1e-10 && Rltb (Rabs (dy v)) 1e-10.


Definition Velocity_eqb (v rhs : Velocity) : bool :=
  Rltb (Rabs (dx v - dx rhs)) 1e-10 && Rltb (Rabs (dy v - dy rhs)) 1e-10.
Definition Velocity_neqb (v rhs : Velocity) : bool := negb (Velocity_eqb v rhs).

(** ** position.h / position.cpp: the remaining members *)

(** [Position::getDistanceTo] *)
Definition Position_getDistanceTo (p other : Position) : R :=
  let dx := x other - x p in
  let dy := y other - y p in
  sqrt (dx * dx + dy * dy).

(** [Position::isOrigin] *)
Definition Position_isOrigin (p : Position) : bool :=
  Rltb (Rabs (x p)) 1e-10 && Rltb (Rabs (y p)) 1e-10.

Definition Position_eqb (p rhs : Position) : bool :=
  Rltb (Rabs (x p - x rhs)) 1e-10 && Rltb (Rabs (y p - y rhs)) 1e-10.
Definition Position_neqb (p rhs : Position) : bool := negb (Position_eqb p rhs).



(** ** howitzer.h: the remaining members *)

(** A C++ [int]: 32 bits, two's complement; [wrapInt] brings the result of
    an arithmetic operation back into its range. *)
Definition wrapInt (z : Z) : Z :=
  ((z + 2147483648) mod 4294967296 - 2147483648)%Z.

Definition Howitzer_getPosition (h : Howitzer) : Position := position h.
Definition Howitzer_setPosition (pos : Position) (h : Howitzer) : Howitzer :=
  mkHowitzer pos (muzzleVelocity h) (elevation h) (lastFireTime h) (roundsFired h).

Definition Howitzer_getMuzzleVelocity (h : Howitzer) : R := muzzleVelocity h.

(** [Howitzer::setMuzzleVelocity] *)
Definition Howitzer_setMuzzleVelocity (velocity : R) (h : Howitzer) : Howitzer :=
  mkHowitzer (position h)
             (if Rgt_dec' velocity 0.0 then velocity else muzzleVelocity h)
             (elevation h) (lastFireTime h) (roundsFired h).

(** [setMaxElevation], [setMinElevation], [setHorizontal] *)
Definition Howitzer_setMaxElevation (h : Howitzer) : Howitzer :=
  withElevation (Angle_setDegrees MAX_ELEVATION_ANGLE (elevation h)) h.
Definition Howitzer_setMinElevation (h : Howitzer) : Howitzer :=
  withElevation (Angle_setDegrees MIN_ELEVATION_ANGLE (elevation h)) h.
Definition Howitzer_setHorizontal (h : Howitzer) : Howitzer :=
  withElevation (Angle_setDegrees 0.0 (elevation h)) h.

Definition Howitzer_getRoundsFired (h : Howitzer) : Z := roundsFired h.
Definition Howitzer_getLastFireTime (h : Howitzer) : R := lastFireTime h.

(** [Howitzer::recordFiring] *)
Definition Howitzer_recordFiring (currentTime : R) (h : Howitzer) : Howitzer :=
  mkHowitzer (position h) (muzzleVelocity h) (elevation h) currentTime
             (wrapInt (roundsFired h + 1)).

(** [Howitzer::canFire] *)
Definition Howitzer_canFire (h : Howitzer) : bool := Rltb 0.0 (muzzleVelocity h).

(** [Howitzer::reset] *)
Definition Howitzer_reset (h : Howitzer) : Howitzer :=
  mkHowitzer (position h) DEFAULT_MUZZLE_VELOCITY
             (Angle_setDegrees DEFAULT_ELEVATION_ANGLE (elevation h)) (-1.0) 0.

(** ** simulation.h / simulation.cpp *)

Definition TRAIL_LENGTH : nat := 20.

(** The simulator.  The class [Ground] is not part of these sources: its
    type is a parameter, and the methods that call into it ([update],
    [reset], [newGame], the two collision checks) are not modelled.  The
    [std::array] of the trail is a list of [TRAIL_LENGTH] positions. *)
Record Simulator (Ground : Type) : Type := mkSimulator {
  ground : Ground;
  howitzer : Howitzer;
  projectile : Projectile;
  posUpperRight : Position;
  projectilePath : list Position;
  time : R;                 (* current simulation time *)
  isFiring : bool;          (* is projectile currently in flight *)
  isHit : bool;             (* did last shot hit the target *)
  score : Z;                (* number of hits *)
  shotsAttempted : Z        (* total shots fired *)
}.

Arguments mkSimulator {Ground}.
Arguments ground {Ground}.
Arguments howitzer {Ground}.
Arguments projectile {Ground}.
Arguments posUpperRight {Ground}.
Arguments projectilePath {Ground}.
Arguments time {Ground}.
Arguments isFiring {Ground}.
Arguments isHit {Ground}.
Arguments score {Ground}.
Arguments shotsAttempted {Ground}.

(** [array[i] = value]; the index is always inside the array in the
    sources, outside it the list is returned as it is. *)
Definition setAt (path : list Position) (i : nat) (value : Position)
  : list Position :=
  if (i <? length path)%nat then firstn i path ++ value :: skipn (S i) path
  else path.

(** The loop of [updateProjectileTrail],
    [for (int i = TRAIL_LENGTH - 1; i > 0; i--) path[i] = path[i - 1]],
    started at [i]. *)
Fixpoint shiftTrail (i : nat) (path : list Position) : list Position :=
  match i with
  | O => path
  | S j => shiftTrail j (setAt path (S j) (nth j path Position_default))
  end.

(** The loop of [clearProjectileTrail],
    [for (int i = 0; i < TRAIL_LENGTH; i++) path[i] = Position()]. *)
Definition clearTrail (path : list Position) : list Position :=
  fold_left (fun path i => setAt path i Position_default) (seq 0 TRAIL_LENGTH) path.

Section SimulatorMethods.

Context {Ground : Type}.

Definition withHowitzer (h : Howitzer) (sim : Simulator Ground) : Simulator Ground :=
  mkSimulator (ground sim) h (projectile sim) (posUpperRight sim)
              (projectilePath sim) (time sim) (isFiring sim) (isHit sim)
              (score sim) (shotsAttempted sim).

Definition withProjectilePath (path : list Position) (sim : Simulator Ground)
  : Simulator Ground :=
  mkSimulator (ground sim) (howitzer sim) (projectile sim) (posUpperRight sim)
              path (time sim) (isFiring sim) (isHit sim)
              (score sim) (shotsAttempted sim).

(** [Simulator::getHitRate] *)
Definition Simulator_getHitRate (sim : Simulator Ground) : R :=
  if (shotsAttempted sim >? 0)%Z then IZR (score sim) / IZR (shotsAttempted sim)
  else 0.0.

(** [Simulator::processMovementInput]; the answers of the interface to
    [isRight()], [isLeft()], [isUp()] and [isDown()] are passed in. *)
Definition Simulator_processMovementInput (keyRight keyLeft keyUp keyDown : bool)
    (sim : Simulator Ground) : Simulator Ground :=
  let currentAngle := Angle_getDegrees (Howitzer_getElevation (howitzer sim)) in
  let h := howitzer sim in
  let h := if keyRight && Rltb currentAngle MAX_ELEVATION_ANGLE
           then Howitzer_rotate 0.05 h else h in
  let h := if keyLeft && Rltb 0.0 currentAngle
           then Howitzer_rotate (-0.05) h else h in
  let h := if keyUp && Rltb currentAngle MAX_ELEVATION_ANGLE
           then Howitzer_raise 0.003 h else h in
  let h := if keyDown && Rltb 0.0 currentAngle
           then Howitzer_raise (-0.003) h else h in
  withHowitzer h sim.


(** [Simulator::updateProjectileTrail] *)
Definition Simulator_updateProjectileTrail (sim : Simulator Ground)
  : Simulator Ground :=
  let path := shiftTrail (TRAIL_LENGTH - 1) (projectilePath sim) in
  withProjectilePath (setAt path 0 (Projectile_getPosition (projectile sim))) sim.

(** [Simulator::clearProjectileTrail] *)
Definition Simulator_clearProjectileTrail (sim : Simulator Ground)
  : Simulator Ground :=
  withProjectilePath (clearTrail (projectilePath sim)) sim.

(** [Simulator::calculateDistance] *)
Definition Simulator_calculateDistance (pos1 pos2 : Position) : R :=
  let dx := Position_getMetersX pos1 - Position_getMetersX pos2 in
  let dy := Position_getMetersY pos1 - Position_getMetersY pos2 in
  sqrt (dx * dx + dy * dy).

End SimulatorMethods.

(** ** Specification-side definitions *)

(** The value on the segment through two knots: the formula
    r = r0 + (r1 - r0) * (d - d0) / (d1 - d0). *)
Definition interpolate_between (k0 k1 : Mapping) (d : R) : R :=
  range k0 + (range k1 - range k0) * (d - domain k0) / (domain k1 - domain k0).

(** The [i]-th knot of a table. *)
Definition knot (mapping : list Mapping) (i : nat) : Mapping :=
  nth i mapping (mkMapping 0 0).

(** The invariant of [Angle]: the stored value is in [0, 2 PI). *)
Definition Angle_inRange (a : Angle) : Prop := 0 <= radians a < 2.0 * PI.

(** The elevation of a howitzer in degrees, as its getter reports it, and
    the configured range of elevations. *)
Definition elevationDegrees (h : Howitzer) : R :=
  Angle_getDegrees (Howitzer_getElevation h).

Definition elevationInRange (h : Howitzer) : Prop :=
  MIN_ELEVATION_ANGLE <= elevationDegrees h <= MAX_ELEVATION_ANGLE.

(** The elevation [rotate] and [raise] try to reach, in degrees
    ([newDegrees] in both methods): [rotate] adds the delta, [raise]
    subtracts it when the barrel points to the right and adds it otherwise. *)
Definition rotateTarget (radians : R) (h : Howitzer) : R :=
  elevationDegrees h + radians * (180.0 / PI).


(** The sample one step of [advance] computes from the last sample
    [current] under the acceleration [a]. *)
Definition stepSample (a : Acceleration) (current : PositionVelocityTime)
    (simulationTime : R) : PositionVelocityTime :=
  let deltaTime := simulationTime - t current in
  mkPVT (mkPosition
           (x (pos current) + (dx (v current) * deltaTime + 0.5 * ddx a * deltaTime * deltaTime))
           (y (pos current) + (dy (v current) * deltaTime + 0.5 * ddy a * deltaTime * deltaTime)))
        (mkVelocity (dx (v current) + ddx a * deltaTime)
                    (dy (v current) + ddy a * deltaTime))
        simulationTime.

(** The states of a projectile that its public interface produces. *)
Inductive Reachable : Projectile -> Prop :=
| Reachable_default : Reachable Projectile_default
| Reachable_custom (mass radius : R) : Reachable (Projectile_custom mass radius)
| Reachable_reset (p : Projectile) : Reachable p -> Reachable (Projectile_reset p)
| Reachable_fire (p p' : Projectile) (position : Position) (angle : Angle)
    (muzzleVelocity time : R) :
    Reachable p ->
    Projectile_fire position angle muzzleVelocity time p = Some p' ->
    Reachable p'
| Reachable_advance (p p' : Projectile) (simulationTime : R) :
    Reachable p -> Projectile_advance simulationTime p = Some p' -> Reachable p'
| Reachable_setMass (p : Projectile) (newMass : R) :
    Reachable p -> Reachable (Projectile_setMass newMass p)
| Reachable_setRadius (p : Projectile) (newRadius : R) :
    Reachable p -> Reachable (Projectile_setRadius newRadius p).

(** A run of [advance] calls, one per time of the list. *)
Fixpoint advances (times : list R) (p : Projectile) : option Projectile :=
  match times with
  | [] => ret p
  | simulationTime :: rest =>
      p' <- Projectile_advance simulationTime p ;; advances rest p'
  end.

(** Timestamps strictly increasing along a trajectory. *)
Definition increasingTimes (path : list PositionVelocityTime) : Prop :=
  Sorted Rlt (map t path).



(** A shell released at rest on the ground at t = 0 and advanced to t = 1. *)
Definition droppedShell : Projectile :=
  mkProjectile 46.7 0.077545 true [mkPVT (mkPosition 0 0) (mkVelocity 0 0) 0].
Definition droppedSample : PositionVelocityTime :=
  mkPVT (mkPosition 0 (- 4.9035)) (mkVelocity 0 (- 9.807)) 1.
Definition impactedShell : Projectile :=
  mkProjectile 46.7 0.077545 false
    [mkPVT (mkPosition 0 0) (mkVelocity 0 0) 0; droppedSample].


(** * Properties *)

(** ** Table interpolation *)

(** The midpoint of the binary search lies strictly between its bounds. *)
Lemma quot2_bounds (a b : Z) : (a < b - 1)%Z ->
  (a < a + Z.quot (b - a) 2 < b)%Z.
Proof.
  intros H. rewrite Z.quot_div_nonneg by lia.
  assert (1 <= (b - a) / 2 < b - a)%Z
    by (split; [apply Z.div_le_lower_bound | apply Z.div_lt_upper_bound]; lia).
  lia.
Qed.

(** The loop keeps its bracket and ends on two adjacent indices. *)
Lemma bsearch_spec (mapping : list Mapping) (d : R) (left_ right_ : Z) :
  (left_ < right_)%Z ->
  domain (at_ mapping left_) <= d < domain (at_ mapping right_) ->
  exists i : Z,
    bsearch mapping d left_ right_ = (i, (i + 1)%Z) /\
    (left_ <= i < right_)%Z /\
    domain (at_ mapping i) <= d < domain (at_ mapping (i + 1)).
Proof.
  funelim (bsearch mapping d left_ right_); intros Hlt Hd.
  - exists left_. replace (left_ + 1)%Z with right_ by lia.
    split; [reflexivity | split; [lia | exact Hd]].
  - pose proof (quot2_bounds left_ right_ l) as Hm.
    destruct H as (i & Hi & Hr & Hb); [lia | lra |].
    exists i. split; [exact Hi | split; [lia | exact Hb]].
  - pose proof (quot2_bounds left_ right_ l) as Hm.
    destruct H as (i & Hi & Hr & Hb); [lia | lra |].
    exists i. split; [exact Hi | split; [lia | exact Hb]].
Qed.

Lemma at_knot (mapping : list Mapping) (i : nat) : at_ mapping (Z.of_nat i) = knot mapping i.
Proof. unfold at_, knot. now rewrite Nat2Z.id. Qed.

(** The three ways the table interpolation returns. *)
Lemma interpolation_cases (mapping : list Mapping) (d : R) :
  mapping <> [] ->
  (d <= domain (knot mapping 0) /\
   linearInterpolationMapping mapping d = Some (range (knot mapping 0))) \/
  (domain (knot mapping 0) < d /\ domain (knot mapping (length mapping - 1)) <= d /\
   linearInterpolationMapping mapping d = Some (range (knot mapping (length mapping - 1)))) \/
  (domain (knot mapping 0) < d < domain (knot mapping (length mapping - 1)) /\
   exists i : nat, (S i < length mapping)%nat /\
     domain (knot mapping i) <= d < domain (knot mapping (S i)) /\
     linearInterpolationMapping mapping d =
       Some (interpolate_between (knot mapping i) (knot mapping (S i)) d)).
Proof.
  intros Hne. unfold linearInterpolationMapping.
  set (n := Z.of_nat (length mapping)).
  assert (Hlen : (0 < length mapping)%nat)
    by (destruct mapping; [congruence | simpl; lia]).
  assert (Hn1 : (n - 1)%Z = Z.of_nat (length mapping - 1)) by (unfold n; lia).
  destruct (Z_gt_dec n 0) as [Hpos | Hneg]; [| unfold n in Hneg; lia]. simpl.
  change 0%Z with (Z.of_nat 0). rewrite Hn1, !at_knot.
  destruct (Rle_dec d (domain (knot mapping 0))) as [Hle | Hgt]; [left; now split |].
  right.
  destruct (Rge_dec' d (domain (knot mapping (length mapping - 1)))) as [Hge | Hlt];
    [left; repeat split; trivial; lra |].
  right. split; [lra |].
  destruct (bsearch_spec mapping d (Z.of_nat 0) (Z.of_nat (length mapping - 1)))
    as (k & Hk & Hrange & Hbk).
  - destruct (Nat.eq_dec (length mapping - 1) 0) as [E | E]; [rewrite E in Hlt; lra | lia].
  - rewrite !at_knot. lra.
  - assert (Hki : k = Z.of_nat (Z.to_nat k)) by lia.
    remember (Z.to_nat k) as i eqn:Ei. clear Ei. subst k.
    rewrite Hk. exists i.
    replace (Z.of_nat i + 1)%Z with (Z.of_nat (S i)) in Hk, Hbk |- * by lia.
    rewrite !at_knot in Hbk |- *.
    split; [lia |]. split; [exact Hbk |].
    unfold linearInterpolation.
    destruct (Rneq_dec' (domain (knot mapping (S i))) (domain (knot mapping i)))
      as [Hd | Hd]; [reflexivity | lra].
Qed.

(** On a non-empty table the interpolation always returns, and its result
    lies within any bounds that hold for all the ranges of the table. *)
Lemma interpolation_bounded (mapping : list Mapping) (d lo hi : R) :
  mapping <> [] ->
  (forall k, In k mapping -> lo <= range k <= hi) ->
  exists r, linearInterpolationMapping mapping d = Some r /\ lo <= r <= hi.
Proof.
  intros Hne Hall.
  assert (Hk : forall i, (i < length mapping)%nat -> lo <= range (knot mapping i) <= hi)
    by (intros i Hi; apply Hall, nth_In, Hi).
  assert (Hlen : (0 < length mapping)%nat)
    by (destruct mapping; [congruence | simpl; lia]).
  destruct (interpolation_cases mapping d Hne)
    as [[_ ->] | [(_ & _ & ->) | (_ & i & Hi & Hb & ->)]].
  - eexists; split; [reflexivity | apply Hk; lia].
  - eexists; split; [reflexivity | apply Hk; lia].
  - eexists; split; [reflexivity |].
    pose proof (Hk i ltac:(lia)) as H0. pose proof (Hk (S i) Hi) as H1.
    unfold interpolate_between.
    set (d0 := domain (knot mapping i)) in *. set (d1 := domain (knot mapping (S i))) in *.
    set (r0 := range (knot mapping i)) in *. set (r1 := range (knot mapping (S i))) in *.
    assert (Hw : 0 < d1 - d0) by lra.
    set (w := (d - d0) / (d1 - d0)).
    assert (Hw01 : 0 <= w < 1).
    { unfold w. split.
      - apply Rmult_le_pos; [lra | left; apply Rinv_0_lt_compat, Hw].
      - apply (Rmult_lt_reg_r (d1 - d0)); [exact Hw |]. field_simplify; lra. }
    replace (r0 + (r1 - r0) * (d - d0) / (d1 - d0)) with (r0 + (r1 - r0) * w)
      by (unfold w; field; lra).
    nra.
Qed.

Section Tables.

Variable mapping : list Mapping.
Hypothesis Hsorted : Sorted Rlt (map domain mapping).

Lemma strongly_sorted_nth (l : list R) (i j : nat) :
  StronglySorted Rlt l -> (i < j < length l)%nat -> nth i l 0 < nth j l 0.
Proof.
  intros Hs. revert i j. induction Hs as [| a l Hs IH Hall]; intros i j [Hij Hj].
  - simpl in Hj. lia.
  - destruct j as [| j]; [lia |]. simpl in Hj. destruct i as [| i]; simpl.
    + rewrite Forall_forall in Hall. apply Hall, nth_In. lia.
    + apply IH. lia.
Qed.

Lemma knots_increasing (i j : nat) :
  (i < j < length mapping)%nat -> domain (knot mapping i) < domain (knot mapping j).
Proof.
  intros Hij. unfold knot.
  rewrite <- (map_nth domain mapping (mkMapping 0 0) i), <- (map_nth domain mapping (mkMapping 0 0) j).
  simpl. apply strongly_sorted_nth.
  - apply Sorted_StronglySorted; [| exact Hsorted]. intros a b c. apply Rlt_trans.
  - now rewrite length_map.
Qed.

Lemma knots_monotone (i j : nat) :
  (i <= j < length mapping)%nat -> domain (knot mapping i) <= domain (knot mapping j).
Proof.
  intros [Hij Hj]. destruct (Nat.eq_dec i j) as [-> | Hne]; [lra |].
  left. apply knots_increasing. lia.
Qed.

Lemma bracket_unique (d : R) (i j : nat) :
  (S i < length mapping)%nat -> (S j < length mapping)%nat ->
  domain (knot mapping i) <= d < domain (knot mapping (S i)) ->
  domain (knot mapping j) <= d < domain (knot mapping (S j)) ->
  i = j.
Proof.
  intros Hi Hj Hbi Hbj.
  destruct (Nat.lt_trichotomy i j) as [Hlt | [Heq | Hgt]]; [| exact Heq |].
  - pose proof (knots_monotone (S i) j ltac:(lia)). lra.
  - pose proof (knots_monotone (S j) i ltac:(lia)). lra.
Qed.

Lemma interpolation_interior (d : R) (i : nat) :
  (S i < length mapping)%nat ->
  domain (knot mapping i) <= d < domain (knot mapping (S i)) ->
  domain (knot mapping 0) < d ->
  linearInterpolationMapping mapping d =
    Some (interpolate_between (knot mapping i) (knot mapping (S i)) d).
Proof.
  intros Hi Hb H0.
  assert (Hne : mapping <> []) by (destruct mapping; [simpl in Hi; lia | congruence]).
  pose proof (knots_monotone (S i) (length mapping - 1) ltac:(lia)) as Hlast.
  destruct (interpolation_cases mapping d Hne) as [[H _] | [(_ & H & _) | (_ & j & Hj & Hbj & ->)]];
    [lra | lra |].
  now rewrite (bracket_unique d i j).
Qed.

End Tables.

(** The four tables of the atmospheric model are non-empty and ordered. *)
Lemma gravityMapping_sorted : Sorted Rlt (map domain gravityMapping).
Proof. simpl. repeat (constructor; try lra). Qed.

Lemma densityMapping_sorted : Sorted Rlt (map domain densityMapping).
Proof. simpl. repeat (constructor; try lra). Qed.

Lemma speedSoundMapping_sorted : Sorted Rlt (map domain speedSoundMapping).
Proof. simpl. repeat (constructor; try lra). Qed.

Lemma dragMapping_sorted : Sorted Rlt (map domain dragMapping).
Proof. simpl. repeat (constructor; try lra). Qed.


Lemma gravity_sea_level : gravityFromAltitude 0 = Some 9.807.
Proof.
  unfold gravityFromAltitude.
  destruct (interpolation_cases gravityMapping 0 ltac:(discriminate))
    as [[_ ->] | [(H & _) | ((H & _) & _)]];
    [reflexivity | simpl in H; lra | simpl in H; lra].
Qed.

(** Air density and drag coefficient are never negative, and every lookup
    of the atmospheric model returns. *)
Lemma densityFromAltitude_nonneg (altitude : R) :
  exists r, densityFromAltitude altitude = Some r /\ 0 <= r <= 1.225.
Proof.
  apply interpolation_bounded; [discriminate |].
  intros k Hk. simpl in Hk.
  repeat (destruct Hk as [<- | Hk]; [simpl; lra |]). contradiction.
Qed.

Lemma dragFromMach_nonneg (speedMach : R) :
  exists r, dragFromMach speedMach = Some r /\ 0 <= r <= 0.4483.
Proof.
  apply interpolation_bounded; [discriminate |].
  intros k Hk. simpl in Hk.
  repeat (destruct Hk as [<- | Hk]; [simpl; lra |]). contradiction.
Qed.

Lemma speedSoundFromAltitude_positive (altitude : R) :
  exists r, speedSoundFromAltitude altitude = Some r /\ 269 <= r <= 340.
Proof.
  apply interpolation_bounded; [discriminate |].
  intros k Hk. simpl in Hk.
  repeat (destruct Hk as [<- | Hk]; [simpl; lra |]). contradiction.
Qed.

Lemma gravityFromAltitude_bounds (altitude : R) :
  exists r, gravityFromAltitude altitude = Some r /\ 9.564 <= r <= 9.807.
Proof.
  apply interpolation_bounded; [discriminate |].
  intros k Hk. simpl in Hk.
  repeat (destruct Hk as [<- | Hk]; [simpl; lra |]). contradiction.
Qed.

(** C2.  Interpolation contract: on every non-empty table with strictly
    increasing domains and for every query [d], the table interpolation
    returns the range of a knot whose domain is [d]; the range of the first
    knot when [d] is at or below its domain; the range of the last knot when
    [d] is at or above its domain; and otherwise the value
    r0 + (r1 - r0) * (d - d0) / (d1 - d0) on the one pair of adjacent knots
    that brackets [d]. *)
Theorem linearInterpolation_contract (mapping : list Mapping) (d : R) :
  mapping <> [] ->
  Sorted Rlt (map domain mapping) ->
  let n := length mapping in
  (forall i, (i < n)%nat -> d = domain (knot mapping i) ->
     linearInterpolationMapping mapping d = Some (range (knot mapping i))) /\
  (d <= domain (knot mapping 0) ->
     linearInterpolationMapping mapping d = Some (range (knot mapping 0))) /\
  (domain (knot mapping (n - 1)) <= d ->
     linearInterpolationMapping mapping d = Some (range (knot mapping (n - 1)))) /\
  (domain (knot mapping 0) < d < domain (knot mapping (n - 1)) ->
     exists i, (S i < n)%nat /\
       domain (knot mapping i) <= d < domain (knot mapping (S i)) /\
       (forall j, (S j < n)%nat ->
          domain (knot mapping j) <= d < domain (knot mapping (S j)) -> j = i) /\
       linearInterpolationMapping mapping d =
         Some (range (knot mapping i)
               + (range (knot mapping (S i)) - range (knot mapping i))
                 * (d - domain (knot mapping i))
                 / (domain (knot mapping (S i)) - domain (knot mapping i)))).
Proof.
  intros Hne Hs n.
  assert (Hlen : (0 < n)%nat) by (unfold n; destruct mapping; [congruence | simpl; lia]).
  assert (Hfirst : d <= domain (knot mapping 0) ->
            linearInterpolationMapping mapping d = Some (range (knot mapping 0))).
  { intros H. destruct (interpolation_cases mapping d Hne)
      as [[_ E] | [(H' & _) | ((H' & _) & _)]]; [exact E | lra | lra]. }
  assert (Hlast : domain (knot mapping (n - 1)) <= d ->
            linearInterpolationMapping mapping d = Some (range (knot mapping (n - 1)))).
  { intros H. destruct (interpolation_cases mapping d Hne)
      as [[H' E] | [(_ & _ & E) | ((_ & H') & _)]]; [| exact E | fold n in H'; lra].
    destruct (Nat.eq_dec (n - 1) 0) as [-> | Hn]; [exact E |].
    pose proof (knots_increasing mapping Hs 0 (n - 1) ltac:(unfold n in *; lia)). lra. }
  assert (Hmid : domain (knot mapping 0) < d < domain (knot mapping (n - 1)) ->
            exists i, (S i < n)%nat /\
              domain (knot mapping i) <= d < domain (knot mapping (S i)) /\
              (forall j, (S j < n)%nat ->
                 domain (knot mapping j) <= d < domain (knot mapping (S j)) -> j = i) /\
              linearInterpolationMapping mapping d =
                Some (interpolate_between (knot mapping i) (knot mapping (S i)) d)).
  { intros H. destruct (interpolation_cases mapping d Hne)
      as [[H' _] | [(_ & H' & _) | (_ & i & Hi & Hb & E)]];
      [lra | fold n in H'; lra |].
    exists i. repeat split; try apply Hb; trivial.
    intros j Hj Hbj. symmetry. now apply (bracket_unique mapping Hs d). }
  repeat split; trivial.
  intros i Hi ->.
  destruct (Nat.eq_dec i 0) as [-> | Hi0]; [apply Hfirst; lra |].
  destruct (Nat.eq_dec i (n - 1)) as [-> | Hin]; [apply Hlast; lra |].
  rewrite (interpolation_interior mapping Hs _ i).
  - f_equal. unfold interpolate_between.
    pose proof (knots_increasing mapping Hs i (S i) ltac:(unfold n in *; lia)).
    field. lra.
  - unfold n in *; lia.
  - pose proof (knots_increasing mapping Hs i (S i) ltac:(unfold n in *; lia)). lra.
  - apply (knots_increasing mapping Hs). unfold n in *; lia.
Qed.

(** The contract at the gravity table: the knot at 1000 m is hit exactly. *)
Lemma linearInterpolation_contract_witness :
  linearInterpolationMapping gravityMapping 1000 = Some 9.804.
Proof.
  assert (Hne : gravityMapping <> []) by discriminate.
  destruct (linearInterpolation_contract gravityMapping 1000 Hne gravityMapping_sorted)
    as [Hknot _].
  apply (Hknot 1%nat).
  - simpl. lia.
  - simpl. lra.
Defined.

(** ** Angles *)

(** An integer strictly between -1 and 1 is 0. *)
Lemma IZR_small (k : Z) : -1 < IZR k < 1 -> k = 0%Z.
Proof.
  intros [H1 H2]. apply lt_IZR in H1, H2. lia.
Qed.

Lemma Int_part_bounds (r : R) : IZR (Int_part r) <= r < IZR (Int_part r) + 1.
Proof. destruct (base_Int_part r). lra. Qed.

(** [fmod] removes a whole number of periods and keeps the sign. *)
Lemma fmod_spec (a b : R) :
  0 < b ->
  (exists k : Z, fmod a b = a + IZR k * b) /\
  (0 <= a -> 0 <= fmod a b < b) /\
  (a < 0 -> - b < fmod a b <= 0).
Proof.
  intros Hb. unfold fmod, trunc.
  assert (Hq : a = a / b * b) by (field; lra).
  destruct (Rle_dec 0 (a / b)) as [Hpos | Hneg].
  - pose proof (Int_part_bounds (a / b)) as Hi.
    split; [exists (- Int_part (a / b))%Z; rewrite opp_IZR; lra |].
    assert (0 <= a) by nra.
    split; [intros _ | lra]. nra.
  - pose proof (Int_part_bounds (- (a / b))) as Hi.
    rewrite opp_IZR.
    split; [exists (Int_part (- (a / b))); lra |].
    assert (a < 0) by nra.
    split; [lra | intros _]. nra.
Qed.

Lemma two_PI_pos : 0 < 2.0 * PI.
Proof. pose proof PI_RGT_0. lra. Qed.

Lemma Angle_normalize_spec (radians : R) :
  (exists k : Z, Angle_normalize radians = radians + IZR k * (2.0 * PI)) /\
  0 <= Angle_normalize radians < 2.0 * PI.
Proof.
  unfold Angle_normalize.
  destruct (fmod_spec radians (2.0 * PI) two_PI_pos) as ((k & Hk) & Hp & Hn).
  destruct (Rlt_dec (fmod radians (2.0 * PI)) 0.0) as [Hlt | Hge].
  - split.
    + exists (k + 1)%Z. rewrite plus_IZR, Hk. lra.
    + destruct (Rle_lt_dec 0 radians) as [H | H]; [apply Hp in H | apply Hn in H]; lra.
  - split; [exists k; exact Hk |].
    destruct (Rle_lt_dec 0 radians) as [H | H]; [apply Hp in H | apply Hn in H]; lra.
Qed.


(** The normal form is the only representative in [0, 2 PI). *)
Lemma Angle_normalize_unique (radians z : R) (k : Z) :
  0 <= z < 2.0 * PI -> radians = z + IZR k * (2.0 * PI) ->
  Angle_normalize radians = z.
Proof.
  intros Hz Hr.
  destruct (Angle_normalize_spec radians) as ((j & Hj) & Hn).
  pose proof two_PI_pos as Hp.
  assert (Hd : Angle_normalize radians - z = IZR (j + k) * (2.0 * PI))
    by (rewrite plus_IZR; lra).
  assert (Hjk : (j + k = 0)%Z).
  { apply IZR_small. split.
    - apply (Rmult_lt_reg_r (2.0 * PI)); [exact Hp | lra].
    - apply (Rmult_lt_reg_r (2.0 * PI)); [exact Hp | lra]. }
  rewrite Hjk in Hd. lra.
Qed.

Lemma Angle_normalize_fixed (radians : R) :
  0 <= radians < 2.0 * PI -> Angle_normalize radians = radians.
Proof.
  intros H. apply (Angle_normalize_unique radians radians 0); [exact H | lra].
Qed.



(** ** Howitzer elevation *)

Lemma Rltb_true (a b : R) : Rltb a b = true <-> a < b.
Proof. unfold Rltb. destruct (Rlt_dec a b); split; intros; try easy. Qed.

Lemma Rltb_false (a b : R) : Rltb a b = false <-> b <= a.
Proof. unfold Rltb. destruct (Rlt_dec a b); split; intros; try easy; lra. Qed.

Lemma Rleb_true (a b : R) : Rleb a b = true <-> a <= b.
Proof. unfold Rleb. destruct (Rle_dec a b); split; intros; try easy. Qed.

Lemma Rleb_false (a b : R) : Rleb a b = false <-> b < a.
Proof. unfold Rleb. destruct (Rle_dec a b); split; intros; try easy; lra. Qed.

Lemma degrees_of_radians (r : R) : r * (180.0 / PI) * (PI / 180.0) = r.
Proof. pose proof PI_RGT_0. field. lra. Qed.

Lemma radians_of_degrees (g : R) : g * (PI / 180.0) * (180.0 / PI) = g.
Proof. pose proof PI_RGT_0. field. lra. Qed.

(** An angle stored from a number of degrees in [0, 85] reads back as it. *)
Lemma getDegrees_small (g : R) :
  0 <= g <= 85 -> Angle_getDegrees (mkAngle (g * (PI / 180.0))) = g.
Proof.
  intros Hg. pose proof PI_RGT_0 as Hpi.
  unfold Angle_getDegrees, Angle_convertToDegrees. simpl.
  rewrite Angle_normalize_fixed; [apply radians_of_degrees |].
  split; [apply Rmult_le_pos; lra |].
  replace (2.0 * PI) with (360 * (PI / 180.0)) by lra.
  apply Rmult_lt_compat_r; lra.
Qed.

Lemma setDegrees_small (g : R) (a : Angle) :
  0 <= g <= 85 -> Angle_setDegrees g a = mkAngle (g * (PI / 180.0)).
Proof.
  intros Hg. pose proof PI_RGT_0 as Hpi.
  unfold Angle_setDegrees, Angle_convertToRadians. f_equal.
  apply Angle_normalize_fixed.
  split; [apply Rmult_le_pos; lra |].
  replace (2.0 * PI) with (360 * (PI / 180.0)) by lra.
  apply Rmult_lt_compat_r; lra.
Qed.

(** What [rotate] stores, whatever the elevation it starts from. *)
Lemma Howitzer_rotate_spec (delta : R) (h : Howitzer) :
  let target := rotateTarget delta h in
  elevation (Howitzer_rotate delta h) =
    mkAngle ((if Rlt_dec target 0 then 0
              else if Rlt_dec 85 target then 85 else target) * (PI / 180.0)).
Proof.
  intros target. pose proof PI_RGT_0 as Hpi.
  unfold Howitzer_rotate, MIN_ELEVATION_ANGLE, MAX_ELEVATION_ANGLE.
  change (Angle_getDegrees (elevation h) + delta * (180.0 / PI)) with target.
  destruct (Rlt_dec target 0) as [Hlo | Hlo].
  - assert (E1 : Rleb 0.0 target = false) by (apply Rleb_false; lra).
    assert (E2 : Rltb target 0.0 = true) by (apply Rltb_true; lra).
    rewrite E1, E2. simpl. rewrite setDegrees_small by lra. f_equal. lra.
  - destruct (Rlt_dec 85 target) as [Hhi | Hhi].
    + assert (E1 : Rleb target 85.0 = false) by (apply Rleb_false; lra).
      assert (E2 : Rltb target 0.0 = false) by (apply Rltb_false; lra).
      assert (E3 : Rltb 85.0 target = true) by (apply Rltb_true; lra).
      rewrite E1, E2, E3, andb_false_r. simpl.
      rewrite setDegrees_small by lra. f_equal. lra.
    + assert (E1 : Rleb 0.0 target = true) by (apply Rleb_true; lra).
      assert (E2 : Rleb target 85.0 = true) by (apply Rleb_true; lra).
      rewrite E1, E2. simpl. unfold Angle_add. f_equal.
      destruct (Angle_normalize_spec (radians (elevation h))) as ((k & Hk) & Hr).
      apply (Angle_normalize_unique _ _ (- k)).
      * split; [apply Rmult_le_pos; lra |].
        replace (2.0 * PI) with (360 * (PI / 180.0)) by lra.
        apply Rmult_lt_compat_r; lra.
      * unfold target, rotateTarget, elevationDegrees, Howitzer_getElevation,
          Angle_getDegrees, Angle_convertToDegrees.
        rewrite Rmult_plus_distr_r, !degrees_of_radians, Hk, opp_IZR. lra.
Qed.

(** [raise] is [rotate] by the delta the orientation of the barrel selects. *)
Lemma Howitzer_raise_rotate (delta : R) (h : Howitzer) :
  Howitzer_raise delta h =
  Howitzer_rotate (if Angle_isRight (elevation h) then - delta else delta) h.
Proof.
  unfold Howitzer_raise, Howitzer_rotate.
  destruct (Angle_isRight (elevation h)).
  - replace (- delta * (180.0 / PI)) with (- (delta * (180.0 / PI))) by lra.
    reflexivity.
  - reflexivity.
Qed.


(** After [rotate] the elevation is the target clamped to [0, 85] degrees. *)
Lemma Howitzer_rotate_clamps (delta : R) (h : Howitzer) :
  let h' := Howitzer_rotate delta h in
  elevationInRange h' /\
  Angle_inRange (elevation h') /\
  (MAX_ELEVATION_ANGLE < rotateTarget delta h ->
     elevationDegrees h' = MAX_ELEVATION_ANGLE) /\
  (rotateTarget delta h < MIN_ELEVATION_ANGLE ->
     elevationDegrees h' = MIN_ELEVATION_ANGLE) /\
  (MIN_ELEVATION_ANGLE <= rotateTarget delta h <= MAX_ELEVATION_ANGLE ->
     elevationDegrees h' = rotateTarget delta h).
Proof.
  intros h'. pose proof PI_RGT_0 as Hpi.
  unfold elevationInRange, elevationDegrees, Howitzer_getElevation, Angle_inRange,
    MIN_ELEVATION_ANGLE, MAX_ELEVATION_ANGLE.
  unfold h'. rewrite Howitzer_rotate_spec.
  set (target := rotateTarget delta h).
  set (g := if Rlt_dec target 0 then 0 else if Rlt_dec 85 target then 85 else target).
  assert (Hg : 0 <= g <= 85)
    by (unfold g; destruct (Rlt_dec target 0); [lra |]; destruct (Rlt_dec 85 target); lra).
  rewrite (getDegrees_small g Hg). simpl.
  split; [lra |]. split.
  { split; [apply Rmult_le_pos; lra |].
    replace (2.0 * PI) with (360 * (PI / 180.0)) by lra.
    apply Rmult_lt_compat_r; lra. }
  unfold g.
  repeat split; intros; destruct (Rlt_dec target 0); try lra;
    destruct (Rlt_dec 85 target); lra.
Qed.

(** The default howitzer points at 45 degrees. *)
Lemma Howitzer_default_elevation : elevationDegrees Howitzer_default = 45.
Proof.
  unfold elevationDegrees, Howitzer_default, Howitzer_getElevation, Angle_ofDegrees,
    DEFAULT_ELEVATION_ANGLE. simpl.
  change (mkAngle (Angle_convertToRadians 45.0)) with (Angle_setDegrees 45.0 Angle_default).
  rewrite setDegrees_small by lra. rewrite getDegrees_small by lra. lra.
Qed.



(** ** Projectile *)

Lemma empty_true (l : list PositionVelocityTime) : empty l = true <-> l = [].
Proof. destruct l; simpl; split; intros; congruence. Qed.

Lemma empty_false (l : list PositionVelocityTime) : empty l = false <-> l <> [].
Proof. destruct l; simpl; split; intros; congruence. Qed.

Lemma back_snoc (l : list PositionVelocityTime) (s : PositionVelocityTime) :
  back (l ++ [s]) = s.
Proof. unfold back. apply last_last. Qed.

(** [advance] does nothing on an idle projectile or a time that is not
    ahead of the last sample. *)
Lemma advance_noop (simulationTime : R) (p : Projectile) :
  isActive p = false \/ flightPath p = [] \/
    simulationTime <= t (back (flightPath p)) ->
  Projectile_advance simulationTime p = Some p.
Proof.
  intros H. unfold Projectile_advance.
  destruct (isActive p); simpl.
  - destruct (flightPath p) as [| s l] eqn:E; simpl; [reflexivity |].
    destruct H as [H | [H | H]]; try discriminate.
    destruct (Rle_dec (simulationTime - t (back (s :: l))) 0.0); [reflexivity | lra].
  - reflexivity.
Qed.

(** Otherwise it appends the sample of one integration step, computed from
    the acceleration at the last sample, provided no assertion fails. *)
Lemma advance_step (simulationTime : R) (p : Projectile) :
  isActive p = true -> flightPath p <> [] ->
  t (back (flightPath p)) < simulationTime ->
  Projectile_advance simulationTime p =
    (a <- Projectile_calculateTotalAcceleration p (back (flightPath p)) ;;
     let s := stepSample a (back (flightPath p)) simulationTime in
     ret (mkProjectile (mass p) (radius p)
            (if Rlt_dec (y (pos s)) 0 then false else true)
            (flightPath p ++ [s]))).
Proof.
  intros Ha Hne Ht. unfold Projectile_advance.
  apply empty_false in Hne. rewrite Ha, Hne. simpl.
  destruct (Rle_dec (simulationTime - t (back (flightPath p))) 0.0) as [H | H]; [lra |].
  destruct (Projectile_calculateTotalAcceleration p (back (flightPath p))) as [a |];
    simpl; [| reflexivity].
  unfold Position_add, Velocity_add.
  destruct (Rge_dec' (simulationTime - t (back (flightPath p))) 0.0) as [Hd | Hd]; [| lra].
  simpl. unfold stepSample, Position_getMetersY, Velocity_getDX, Velocity_getDY,
    Acceleration_getDDX, Acceleration_getDDY. simpl.
  destruct (Rlt_dec _ 0.0) as [Hy | Hy]; destruct (Rlt_dec _ 0) as [Hy' | Hy'];
    try lra; reflexivity.
Qed.

(** The drag computation returns for every projectile of positive mass and
    non-negative radius, and its magnitude is not negative. *)
Lemma dragAcceleration_moving (p : Projectile) (pvt : PositionVelocityTime) :
  Velocity_getSpeed (v pvt) <> 0 -> 0 < mass p -> 0 <= radius p ->
  exists density speedSound dragCoeff a : R,
    densityFromAltitude (Rmax 0 (y (pos pvt))) = Some density /\
    speedSoundFromAltitude (Rmax 0 (y (pos pvt))) = Some speedSound /\
    dragFromMach (Velocity_getSpeed (v pvt) / speedSound) = Some dragCoeff /\
    forceFromDrag density dragCoeff (radius p) (Velocity_getSpeed (v pvt))
      = Some (a * mass p) /\
    a = 0.5 * density * dragCoeff * (PI * (radius p * radius p))
        * (Velocity_getSpeed (v pvt) * Velocity_getSpeed (v pvt)) / mass p /\
    0 <= a /\
    Projectile_calculateDragAcceleration p pvt =
      Some (mkAcceleration (- (a / Velocity_getSpeed (v pvt)) * dx (v pvt))
                           (- (a / Velocity_getSpeed (v pvt)) * dy (v pvt))).
Proof.
  intros Hs Hm Hr.
  assert (Hs0 : 0 <= Velocity_getSpeed (v pvt)) by apply sqrt_pos.
  remember (Velocity_getSpeed (v pvt)) as speed eqn:Esp.
  replace (Rmax 0 (y (pos pvt))) with (Rmax 0.0 (y (pos pvt))) by (f_equal; lra).
  destruct (densityFromAltitude_nonneg (Rmax 0.0 (y (pos pvt)))) as (density & Ed & Hd).
  destruct (speedSoundFromAltitude_positive (Rmax 0.0 (y (pos pvt)))) as (speedSound & Es & Hss).
  destruct (dragFromMach_nonneg (speed / speedSound)) as (dragCoeff & Ec & Hc).
  pose proof PI_RGT_0 as Hpi.
  set (force := 0.5 * density * dragCoeff * (PI * (radius p * radius p)) * (speed * speed)).
  assert (Hf : 0 <= force).
  { assert (H1 : 0 <= density * dragCoeff) by (apply Rmult_le_pos; lra).
    assert (H2 : 0 <= PI * (radius p * radius p))
      by (apply Rmult_le_pos; [lra | apply Rmult_le_pos; lra]).
    assert (H3 : 0 <= speed * speed) by (apply Rmult_le_pos; lra).
    assert (H4 : 0 <= density * dragCoeff * (PI * (radius p * radius p)))
      by (apply Rmult_le_pos; assumption).
    assert (H5 : 0 <= density * dragCoeff * (PI * (radius p * radius p)) * (speed * speed))
      by (apply Rmult_le_pos; assumption).
    unfold force. lra. }
  assert (Ef : forceFromDrag density dragCoeff (radius p) speed = Some force).
  { unfold forceFromDrag, areaFromRadius.
    destruct (Rge_dec' density _); [| lra]. destruct (Rge_dec' dragCoeff _); [| lra].
    destruct (Rge_dec' (radius p) _); [| lra]. destruct (Rge_dec' speed _); [| lra].
    reflexivity. }
  exists density, speedSound, dragCoeff, (force / mass p).
  split; [exact Ed |]. split; [exact Es |]. split; [exact Ec |].
  split; [rewrite Ef; f_equal; field; lra |].
  split; [reflexivity |].
  split; [apply Rmult_le_pos; [exact Hf | left; apply Rinv_0_lt_compat, Hm] |].
  unfold Projectile_calculateDragAcceleration, Position_getMetersY,
    Velocity_getDX, Velocity_getDY.
  rewrite <- Esp. destruct (Req_dec_T speed 0.0) as [E | E]; [lra |].
  rewrite Ed, Es. simpl. rewrite Ec. simpl. rewrite Ef. simpl.
  unfold accelerationFromForce. destruct (Rgt_dec' (mass p) _) as [H | H]; [| lra].
  simpl. unfold ret. f_equal. f_equal; field; lra.
Qed.

Lemma dragAcceleration_at_rest (p : Projectile) (pvt : PositionVelocityTime) :
  Velocity_getSpeed (v pvt) = 0 ->
  Projectile_calculateDragAcceleration p pvt = Some (mkAcceleration 0 0).
Proof.
  intros Hs. unfold Projectile_calculateDragAcceleration.
  destruct (Req_dec_T (Velocity_getSpeed (v pvt)) 0.0) as [E | E]; [| lra].
  unfold ret. do 2 f_equal; lra.
Qed.

Lemma speed_zero_iff (vel : Velocity) :
  Velocity_getSpeed vel = 0 <-> dx vel = 0 /\ dy vel = 0.
Proof.
  unfold Velocity_getSpeed. split.
  - intros H. apply sqrt_eq_0 in H; [| nra]. nra.
  - intros [-> ->]. replace (0 * 0 + 0 * 0) with 0 by lra. apply sqrt_0.
Qed.

(** The total acceleration is gravity, straight down, plus drag. *)
Lemma totalAcceleration_spec (p : Projectile) (pvt : PositionVelocityTime)
    (gravity : R) (drag : Acceleration) :
  gravityFromAltitude (Rmax 0 (y (pos pvt))) = Some gravity ->
  Projectile_calculateDragAcceleration p pvt = Some drag ->
  Projectile_calculateTotalAcceleration p pvt =
    Some (mkAcceleration (0 + ddx drag) (- gravity + ddy drag)).
Proof.
  intros Hg Hd. unfold Projectile_calculateTotalAcceleration, Position_getMetersY.
  replace (Rmax 0.0 (y (pos pvt))) with (Rmax 0 (y (pos pvt))) by (f_equal; lra).
  rewrite Hg. simpl. rewrite Hd. simpl. unfold ret, Acceleration_plus. simpl.
  do 2 f_equal. lra.
Qed.

(** No assertion fails in the acceleration of a projectile of positive
    mass and non-negative radius. *)
Lemma totalAcceleration_total (p : Projectile) (pvt : PositionVelocityTime) :
  0 < mass p -> 0 <= radius p ->
  exists a, Projectile_calculateTotalAcceleration p pvt = Some a.
Proof.
  intros Hm Hr.
  destruct (gravityFromAltitude_bounds (Rmax 0 (y (pos pvt)))) as (g & Hg & _).
  destruct (Req_dec_T (Velocity_getSpeed (v pvt)) 0) as [Hs | Hs].
  - eexists. apply (totalAcceleration_spec p pvt g (mkAcceleration 0 0) Hg).
    now apply dragAcceleration_at_rest.
  - destruct (dragAcceleration_moving p pvt Hs Hm Hr)
      as (? & ? & ? & a & _ & _ & _ & _ & _ & _ & Hd).
    eexists. apply (totalAcceleration_spec p pvt g _ Hg Hd).
Qed.

(** [advance] returns on every projectile of positive mass and non-negative
    radius. *)
Lemma advance_total (simulationTime : R) (p : Projectile) :
  0 < mass p -> 0 <= radius p ->
  exists p', Projectile_advance simulationTime p = Some p'.
Proof.
  intros Hm Hr.
  destruct (isActive p) eqn:Ha; [| exists p; apply advance_noop; now left].
  destruct (flightPath p) as [| s0 l] eqn:Ep;
    [exists p; apply advance_noop; right; now left |].
  destruct (Rle_lt_dec simulationTime (t (back (flightPath p)))) as [Hle | Hlt];
    [exists p; apply advance_noop; now right; right |].
  rewrite advance_step; trivial; [| rewrite Ep; discriminate].
  destruct (totalAcceleration_total p (back (flightPath p)) Hm Hr) as (a & ->).
  simpl. eexists. reflexivity.
Qed.

(** What any returning call of [advance] did. *)
Lemma advance_inversion (simulationTime : R) (p p' : Projectile) :
  Projectile_advance simulationTime p = Some p' ->
  p' = p /\
    (isActive p = false \/ flightPath p = [] \/
       simulationTime <= t (back (flightPath p))) \/
  isActive p = true /\ flightPath p <> [] /\
    t (back (flightPath p)) < simulationTime /\
    exists a,
      Projectile_calculateTotalAcceleration p (back (flightPath p)) = Some a /\
      let s := stepSample a (back (flightPath p)) simulationTime in
      p' = mkProjectile (mass p) (radius p)
             (if Rlt_dec (y (pos s)) 0 then false else true) (flightPath p ++ [s]).
Proof.
  intros H.
  destruct (isActive p) eqn:Ha;
    [| left; rewrite advance_noop in H by (now left); split; [congruence | now left]].
  destruct (flightPath p) as [| s0 l] eqn:Ep;
    [left; rewrite advance_noop in H by (right; now left); split;
       [congruence | right; now left] |].
  rewrite <- Ep in *.
  destruct (Rle_lt_dec simulationTime (t (back (flightPath p)))) as [Hle | Hlt];
    [left; rewrite advance_noop in H by (now right; right); split;
       [congruence | now right; right] |].
  right. rewrite advance_step in H; trivial; [| rewrite Ep; discriminate].
  repeat split; trivial; [rewrite Ep; discriminate |].
  destruct (Projectile_calculateTotalAcceleration p (back (flightPath p))) as [a |];
    simpl in H; [| discriminate].
  exists a. split; [reflexivity |]. simpl. unfold ret in H. congruence.
Qed.

(** [fire] on valid arguments. *)
Lemma fire_spec (p : Projectile) (position : Position) (angle : Angle)
    (muzzleVelocity time : R) :
  0 <= muzzleVelocity -> 0 <= time ->
  Projectile_fire position angle muzzleVelocity time p =
    Some (mkProjectile (mass p) (radius p) true
            [mkPVT position
                   (mkVelocity (muzzleVelocity * sin (radians angle))
                               (muzzleVelocity * cos (radians angle)))
                   time]).
Proof.
  intros Hm Ht. unfold Projectile_fire, Velocity_set.
  destruct (Rge_dec' muzzleVelocity 0.0) as [H | H]; [| lra].
  destruct (Rge_dec' time 0.0) as [H' | H']; [| lra].
  reflexivity.
Qed.

(** Whatever [fire] returns is an active projectile with one sample. *)
Lemma fire_inversion (p p' : Projectile) (position : Position) (angle : Angle)
    (muzzleVelocity time : R) :
  Projectile_fire position angle muzzleVelocity time p = Some p' ->
  0 <= muzzleVelocity /\ 0 <= time /\
  p' = mkProjectile (mass p) (radius p) true
         [mkPVT position
                (mkVelocity (muzzleVelocity * sin (radians angle))
                            (muzzleVelocity * cos (radians angle)))
                time].
Proof.
  intros H.
  assert (Hm : 0 <= muzzleVelocity).
  { unfold Projectile_fire in H.
    destruct (Rge_dec' muzzleVelocity 0.0); [lra | discriminate]. }
  assert (Ht : 0 <= time).
  { unfold Projectile_fire in H.
    destruct (Rge_dec' muzzleVelocity 0.0); [| discriminate].
    destruct (Rge_dec' time 0.0); [lra | discriminate]. }
  rewrite fire_spec in H by assumption. split; [exact Hm |]. split; [exact Ht |].
  congruence.
Qed.

Lemma increasingTimes_snoc (path : list PositionVelocityTime)
    (s : PositionVelocityTime) :
  increasingTimes path -> (path <> [] -> t (back path) < t s) ->
  increasingTimes (path ++ [s]).
Proof.
  unfold increasingTimes. induction path as [| a l IH]; intros Hs Hb; simpl.
  - repeat constructor.
  - inversion Hs as [| ? ? Hl Hhd]; subst. constructor.
    + apply IH; [exact Hl |]. intros Hne. destruct l as [| b l]; [congruence |].
      apply Hb. discriminate.
    + destruct l as [| b l]; simpl.
      * constructor. apply (Hb ltac:(discriminate)).
      * inversion Hhd; subst. now constructor.
Qed.

(** [advance] keeps the timestamps increasing and the samples it found. *)
Lemma advance_increasingTimes (simulationTime : R) (p p' : Projectile) :
  Projectile_advance simulationTime p = Some p' ->
  increasingTimes (flightPath p) -> increasingTimes (flightPath p').
Proof.
  intros H Hs.
  destruct (advance_inversion _ _ _ H) as [[-> _] | (_ & _ & Ht & a & _ & ->)];
    [exact Hs |].
  simpl. apply increasingTimes_snoc; [exact Hs |]. intros _. exact Ht.
Qed.

Lemma advance_prefix (simulationTime : R) (p p' : Projectile) :
  Projectile_advance simulationTime p = Some p' ->
  exists suffix, flightPath p' = flightPath p ++ suffix /\ (length suffix <= 1)%nat.
Proof.
  intros H.
  destruct (advance_inversion _ _ _ H) as [[-> _] | (_ & _ & Ht & a & _ & ->)].
  - exists []. split; [now rewrite app_nil_r | simpl; lia].
  - simpl. eexists. split; [reflexivity | simpl; lia].
Qed.

Lemma advances_increasingTimes (times : list R) (p p' : Projectile) :
  advances times p = Some p' ->
  increasingTimes (flightPath p) ->
  increasingTimes (flightPath p') /\
  exists suffix, flightPath p' = flightPath p ++ suffix.
Proof.
  revert p. induction times as [| tm rest IH]; intros p H Hs; simpl in H.
  - unfold ret in H. injection H as <-. split; [exact Hs |].
    exists []. now rewrite app_nil_r.
  - destruct (Projectile_advance tm p) as [p1 |] eqn:E; simpl in H; [| discriminate].
    destruct (IH p1 H (advance_increasingTimes _ _ _ E Hs)) as (Hs' & suf' & E').
    split; [exact Hs' |].
    destruct (advance_prefix _ _ _ E) as (suf & Es & _).
    exists (suf ++ suf'). now rewrite E', Es, app_assoc.
Qed.

(** Invariants of the reachable states: timestamps increase along the
    trajectory, and an inactive projectile with a trajectory has its last
    sample below the ground. *)
Lemma Reachable_invariant (p : Projectile) :
  Reachable p ->
  increasingTimes (flightPath p) /\
  (isActive p = false ->
   flightPath p = [] \/ y (pos (back (flightPath p))) < 0).
Proof.
  induction 1 as [| m r | p _ _ | p p' position angle mv time _ _ Hf
                  | p p' tm _ [IH1 IH2] Ha | p m _ IH | p r _ IH].
  - split; [constructor | now left].
  - split; [constructor | now left].
  - split; [constructor | now left].
  - destruct (fire_inversion _ _ _ _ _ _ Hf) as (_ & _ & ->). simpl.
    split; [repeat constructor | discriminate].
  - split; [exact (advance_increasingTimes _ _ _ Ha IH1) |].
    destruct (advance_inversion _ _ _ Ha) as [[-> _] | (_ & _ & _ & a & _ & ->)];
      [exact IH2 |].
    simpl. intros Hact. right. rewrite back_snoc.
    destruct (Rlt_dec _ 0) as [Hy | Hy]; [exact Hy | discriminate].
  - exact IH.
  - exact IH.
Qed.

(** One step of a projectile at rest: gravity alone acts. *)
Lemma advance_from_rest (p : Projectile) (simulationTime gravity : R) :
  isActive p = true -> flightPath p <> [] ->
  dx (v (back (flightPath p))) = 0 -> dy (v (back (flightPath p))) = 0 ->
  t (back (flightPath p)) < simulationTime ->
  gravityFromAltitude (Rmax 0 (y (pos (back (flightPath p))))) = Some gravity ->
  Projectile_calculateTotalAcceleration p (back (flightPath p)) =
    Some (mkAcceleration (0 + 0) (- gravity + 0)) /\
  let s := stepSample (mkAcceleration (0 + 0) (- gravity + 0))
                      (back (flightPath p)) simulationTime in
  Projectile_advance simulationTime p =
    Some (mkProjectile (mass p) (radius p)
            (if Rlt_dec (y (pos s)) 0 then false else true)
            (flightPath p ++ [s])).
Proof.
  intros Ha Hne Hdx Hdy Ht Hg.
  assert (Hacc : Projectile_calculateTotalAcceleration p (back (flightPath p)) =
                 Some (mkAcceleration (0 + 0) (- gravity + 0))).
  { apply (totalAcceleration_spec p _ gravity (mkAcceleration 0 0) Hg).
    apply dragAcceleration_at_rest, speed_zero_iff. now split. }
  split; [exact Hacc |].
  rewrite advance_step by assumption. rewrite Hacc. reflexivity.
Qed.

(** A reachable projectile whose last sample is not below the ground is
    active. *)
Lemma Reachable_active (p : Projectile) :
  Reachable p -> flightPath p <> [] -> 0 <= y (pos (back (flightPath p))) ->
  isActive p = true.
Proof.
  intros Hreach Hne Hy. destruct (isActive p) eqn:E; [reflexivity |].
  destruct (Reachable_invariant p Hreach) as [_ Hidle].
  destruct (Hidle E) as [H | H]; [contradiction | lra].
Qed.

(** The dropped shell and its first step. *)
Lemma droppedShell_reachable : Reachable droppedShell.
Proof.
  apply (Reachable_fire Projectile_default _ (mkPosition 0 0) Angle_default 0 0
           Reachable_default).
  rewrite fire_spec by lra. unfold droppedShell. simpl. do 4 f_equal. f_equal; lra.
Qed.

Lemma droppedShell_advance : Projectile_advance 1 droppedShell = Some impactedShell.
Proof.
  destruct (advance_from_rest droppedShell 1 9.807) as [_ H];
    try reflexivity; try discriminate; try (simpl; lra).
  - simpl. rewrite Rmax_left by lra. exact gravity_sea_level.
  - cbv zeta in H. rewrite H. clear H. unfold stepSample. simpl.
    destruct (Rlt_dec _ 0) as [Hy | Hy]; [| lra].
    unfold impactedShell, droppedSample. do 4 f_equal. f_equal; f_equal; lra.
Qed.

Lemma impactedShell_reachable : Reachable impactedShell.
Proof.
  exact (Reachable_advance _ _ _ droppedShell_reachable droppedShell_advance).
Qed.




(** C3.  [advance] is a no-op exactly on an idle projectile or a time that
    is not ahead of the last sample: it returns the whole state (trajectory,
    active flag, mass, radius) unchanged if and only if the projectile is
    inactive, or its trajectory is empty, or the time is not strictly greater
    than the timestamp of the last sample.  [advance] never removes samples,
    and the timestamps of every trajectory produced by [fire] followed by
    [advance] calls are strictly increasing. *)
Theorem advance_noop_iff (p : Projectile) (simulationTime : R) :
  (Projectile_advance simulationTime p = Some p <->
     isActive p = false \/ flightPath p = [] \/
       simulationTime <= t (back (flightPath p))) /\
  (forall p', Projectile_advance simulationTime p = Some p' ->
     exists suffix, flightPath p' = flightPath p ++ suffix) /\
  (forall position angle muzzleVelocity time times p0 p',
     Projectile_fire position angle muzzleVelocity time p = Some p0 ->
     advances times p0 = Some p' ->
     increasingTimes (flightPath p') /\
     exists rest, flightPath p' = flightPath p0 ++ rest).
Proof.
  split; [split |].
  - intros H.
    destruct (advance_inversion _ _ _ H) as [[_ Hc] | (_ & _ & _ & a & _ & E)];
      [exact Hc |].
    apply (f_equal flightPath) in E. simpl in E.
    apply (f_equal (@length _)) in E. rewrite length_app in E. simpl in E. lia.
  - apply advance_noop.
  - split.
    + intros p' H. destruct (advance_prefix _ _ _ H) as (suffix & E & _).
      now exists suffix.
    + intros position angle muzzleVelocity time times p0 p' Hf Ha.
      apply (advances_increasingTimes times p0 p' Ha).
      destruct (fire_inversion _ _ _ _ _ _ Hf) as (_ & _ & ->). simpl.
      repeat constructor.
Qed.

(** The dropped shell: [advance] to a time that is not ahead changes
    nothing, and the trajectory of fire followed by one step has increasing
    timestamps. *)
Lemma advance_noop_iff_witness :
  Projectile_advance 0 droppedShell = Some droppedShell /\
  increasingTimes (flightPath impactedShell).
Proof.
  destruct (advance_noop_iff droppedShell 0) as [[_ Hnoop] _].
  split; [apply Hnoop; right; right; simpl; lra |].
  destruct (advance_noop_iff Projectile_default 0) as (_ & _ & Hrun).
  apply (Hrun (mkPosition 0 0) Angle_default 0 0 [1] droppedShell impactedShell).
  - rewrite fire_spec by lra. unfold droppedShell. simpl. do 4 f_equal. f_equal; lra.
  - simpl. rewrite droppedShell_advance. reflexivity.
Defined.




(** C5.  [fire] with a muzzle velocity and a launch time that are not
    negative discards any prior trajectory and leaves the projectile active
    with exactly one sample: the position given, the velocity
    (m sin theta, m cos theta), the launch time; mass and radius are kept.
    In particular straight up (0 degrees) with muzzle velocity 100 from
    (111, 222) at t = 1 gives the single sample pos = (111, 222),
    v = (0, 100), t = 1. *)
Theorem fire_single_sample (p : Projectile) (position : Position) (angle : Angle)
    (muzzleVelocity time : R) :
  0 <= muzzleVelocity -> 0 <= time ->
  Projectile_fire position angle muzzleVelocity time p =
    Some (mkProjectile (mass p) (radius p) true
            [mkPVT position
                   (mkVelocity (muzzleVelocity * sin (Angle_getRadians angle))
                               (muzzleVelocity * cos (Angle_getRadians angle)))
                   time]) /\
  Projectile_fire (mkPosition 111 222) (Angle_ofDegrees 0) 100 1 p =
    Some (mkProjectile (mass p) (radius p) true
            [mkPVT (mkPosition 111 222) (mkVelocity 0 100) 1]).
Proof.
  intros Hm Ht. split; [now apply fire_spec |].
  rewrite fire_spec by lra.
  assert (E : radians (Angle_ofDegrees 0) = 0).
  { unfold Angle_ofDegrees, Angle_convertToRadians. simpl.
    pose proof PI_RGT_0. rewrite Angle_normalize_fixed; lra. }
  rewrite E, sin_0, cos_0. do 4 f_equal. f_equal; lra.
Qed.

(** Firing the default projectile to the right (90 degrees stored as PI/2
    radians) with muzzle velocity 100. *)
Lemma fire_single_sample_witness :
  Projectile_fire (mkPosition 111 222) (mkAngle (PI / 2)) 100 1 Projectile_default =
    Some (mkProjectile 46.7 0.077545 true
            [mkPVT (mkPosition 111 222) (mkVelocity 100 0) 1]).
Proof.
  destruct (fire_single_sample Projectile_default (mkPosition 111 222)
              (mkAngle (PI / 2)) 100 1) as [H _]; [lra | lra |].
  rewrite H. unfold Angle_getRadians. simpl. rewrite sin_PI2, cos_PI2.
  do 4 f_equal. f_equal; lra.
Defined.

(** C6.  Ground impact: when a call of [advance] on an active projectile
    appends a sample, the projectile becomes inactive in that call if the y
    of the new sample is strictly below zero and stays active if it is at
    least zero; the sample is appended in both cases, is the last of the
    trajectory, and a below-ground sample is kept by every later
    [advance]. *)
Theorem advance_ground_impact (p p' : Projectile) (simulationTime : R) :
  isActive p = true ->
  Projectile_advance simulationTime p = Some p' ->
  flightPath p' <> flightPath p ->
  exists s,
    flightPath p' = flightPath p ++ [s] /\
    back (flightPath p') = s /\
    t s = simulationTime /\
    (Position_getMetersY (pos s) < 0 -> isActive p' = false) /\
    (0 <= Position_getMetersY (pos s) -> isActive p' = true) /\
    (Position_getMetersY (pos s) < 0 ->
       forall later, Projectile_advance later p' = Some p').
Proof.
  intros Hact Hadv Hchanged.
  destruct (advance_inversion _ _ _ Hadv) as [[-> _] | (_ & _ & _ & a & _ & E)];
    [contradiction |].
  cbv zeta in E. subst p'. simpl.
  eexists. split; [reflexivity |]. split; [apply back_snoc |].
  split; [reflexivity |]. unfold Position_getMetersY.
  destruct (Rlt_dec _ 0) as [Hy | Hy].
  - split; [reflexivity |]. split; [intros; lra |].
    intros _ later. apply advance_noop. now left.
  - split; [intros; lra |]. split; [reflexivity | intros; lra].
Qed.

(** The dropped shell falls below the ground in its first step and turns
    inactive with the below-ground sample kept. *)
Lemma advance_ground_impact_witness :
  exists s,
    flightPath impactedShell = flightPath droppedShell ++ [s] /\
    Position_getMetersY (pos s) < 0 /\
    isActive impactedShell = false.
Proof.
  destruct (advance_ground_impact droppedShell impactedShell 1)
    as (s & Hpath & Hback & _ & Hneg & _).
  - reflexivity.
  - exact droppedShell_advance.
  - discriminate.
  - exists s. split; [exact Hpath |].
    assert (Hs : s = droppedSample) by (rewrite <- Hback; reflexivity).
    assert (Hy : Position_getMetersY (pos s) < 0) by (rewrite Hs; simpl; lra).
    split; [exact Hy | reflexivity].
Defined.

(** C9.  [getCurrentAltitude] is max(0, y of the last sample), and 0 when the
    trajectory is empty; it is never negative.  Right after a ground impact
    the last sample has y < 0, so the altitude reported (0) differs from the
    y of [getPosition] on the same state. *)
Theorem getCurrentAltitude_clamped :
  (forall p : Projectile,
     (flightPath p = [] -> Projectile_getCurrentAltitude p = 0) /\
     (flightPath p <> [] ->
        Projectile_getCurrentAltitude p =
          Rmax 0 (Position_getMetersY (pos (back (flightPath p))))) /\
     0 <= Projectile_getCurrentAltitude p) /\
  (exists p : Projectile,
     Reachable p /\
     isActive p = false /\
     Position_getMetersY (Projectile_getPosition p) < 0 /\
     Projectile_getCurrentAltitude p = 0 /\
     Projectile_getCurrentAltitude p <>
       Position_getMetersY (Projectile_getPosition p)).
Proof.
  split.
  - intros p. unfold Projectile_getCurrentAltitude.
    destruct (flightPath p) as [| s l] eqn:E; simpl.
    + split; [intros _; lra |]. split; [congruence | lra].
    + split; [discriminate |]. split.
      * intros _. f_equal; lra.
      * eapply Rle_trans; [| apply Rmax_l]. lra.
  - exists impactedShell. split; [exact impactedShell_reachable |].
    split; [reflexivity |].
    assert (Hy : Position_getMetersY (Projectile_getPosition impactedShell) = - 4.9035)
      by reflexivity.
    assert (Ha : Projectile_getCurrentAltitude impactedShell = 0).
    { unfold Projectile_getCurrentAltitude. simpl. rewrite Rmax_left; lra. }
    rewrite Hy, Ha. repeat split; lra.
Qed.

(** C10.  Positive mass and radius are preserved by every public operation:
    [setMass] and [setRadius] keep the previous value when their argument is
    not positive (and store a positive one), [reset] restores the M795
    defaults, which are positive, and [fire] and [advance] leave mass and
    radius as they are.  The two-argument constructor stores its arguments
    unchecked. *)
Theorem mass_radius_positive (p : Projectile) :
  0 < mass p -> 0 < radius p ->
  (forall newMass : R,
     let p' := Projectile_setMass newMass p in
     0 < mass p' /\ 0 < radius p' /\ radius p' = radius p /\
     (newMass <= 0 -> mass p' = mass p) /\ (0 < newMass -> mass p' = newMass)) /\
  (forall newRadius : R,
     let p' := Projectile_setRadius newRadius p in
     0 < mass p' /\ 0 < radius p' /\ mass p' = mass p /\
     (newRadius <= 0 -> radius p' = radius p) /\
     (0 < newRadius -> radius p' = newRadius)) /\
  (let p' := Projectile_reset p in
   mass p' = 46.7 /\ radius p' = 0.077545 /\ 0 < mass p' /\ 0 < radius p') /\
  (forall position angle muzzleVelocity time p',
     Projectile_fire position angle muzzleVelocity time p = Some p' ->
     mass p' = mass p /\ radius p' = radius p) /\
  (forall simulationTime p',
     Projectile_advance simulationTime p = Some p' ->
     mass p' = mass p /\ radius p' = radius p) /\
  (forall m r : R,
     mass (Projectile_custom m r) = m /\ radius (Projectile_custom m r) = r).
Proof.
  intros Hm Hr.
  split; [| split; [| split; [| split; [| split]]]].
  - intros newMass p'. unfold p', Projectile_setMass. simpl.
    destruct (Rgt_dec' newMass 0.0); repeat split; trivial; intros; lra.
  - intros newRadius p'. unfold p', Projectile_setRadius. simpl.
    destruct (Rgt_dec' newRadius 0.0); repeat split; trivial; intros; lra.
  - simpl. unfold DEFAULT_PROJECTILE_WEIGHT, DEFAULT_PROJECTILE_RADIUS.
    repeat split; lra.
  - intros position angle muzzleVelocity time p' H.
    destruct (fire_inversion _ _ _ _ _ _ H) as (_ & _ & ->). now split.
  - intros simulationTime p' H.
    destruct (advance_inversion _ _ _ H) as [[-> _] | (_ & _ & _ & a & _ & ->)];
      now split.
  - intros m r. now split.
Qed.

(** The default projectile, and the unchecked constructor at -1. *)
Lemma mass_radius_positive_witness :
  0 < mass (Projectile_setMass (- 5) Projectile_default) /\
  mass (Projectile_setMass (- 5) Projectile_default) = 46.7 /\
  mass (Projectile_custom (- 1) (- 1)) = - 1.
Proof.
  assert (Hm : 0 < mass Projectile_default)
    by (simpl; unfold DEFAULT_PROJECTILE_WEIGHT; lra).
  assert (Hr : 0 < radius Projectile_default)
    by (simpl; unfold DEFAULT_PROJECTILE_RADIUS; lra).
  destruct (mass_radius_positive Projectile_default Hm Hr)
    as (HsetMass & _ & _ & _ & _ & Hcustom).
  destruct (HsetMass (- 5)) as (Hpos & _ & _ & Hkeep & _).
  split; [exact Hpos |]. split; [apply Hkeep; lra |].
  apply (Hcustom (- 1) (- 1)).
Defined.

(** * Further properties of the code *)

(** ** Angles: arithmetic modulo a full turn *)

(** [normalize] depends only on the angle modulo a full turn. *)
Lemma Angle_normalize_shift (r : R) (k : Z) :
  Angle_normalize (r + IZR k * (2.0 * PI)) = Angle_normalize r.
Proof.
  destruct (Angle_normalize_spec r) as ((j & Hj) & Hr).
  apply (Angle_normalize_unique _ _ (k - j)); [exact Hr |].
  rewrite Hj, minus_IZR. lra.
Qed.

Lemma Angle_normalize_add_l (r d : R) :
  Angle_normalize (Angle_normalize r + d) = Angle_normalize (r + d).
Proof.
  destruct (Angle_normalize_spec r) as ((j & Hj) & _).
  rewrite Hj. replace (r + IZR j * (2.0 * PI) + d) with (r + d + IZR j * (2.0 * PI)) by lra.
  apply Angle_normalize_shift.
Qed.

Lemma Angle_normalize_add_r (r d : R) :
  Angle_normalize (r + Angle_normalize d) = Angle_normalize (r + d).
Proof.
  rewrite (Rplus_comm r), Angle_normalize_add_l. f_equal. lra.
Qed.

















(** ** Polar and Cartesian forms *)

















(** ** Tables: what the lookup never does *)



Section Antitone.

Variable mapping : list Mapping.
Hypothesis Hsorted : Sorted Rlt (map domain mapping).
Hypothesis Hranges :
  forall i, (S i < length mapping)%nat ->
    range (knot mapping (S i)) <= range (knot mapping i).

Lemma ranges_antitone (i j : nat) :
  (i <= j < length mapping)%nat -> range (knot mapping j) <= range (knot mapping i).
Proof.
  intros [Hij Hj]. induction Hij as [| j Hij IH]; [lra |].
  apply Rle_trans with (range (knot mapping j)); [apply Hranges; lia | apply IH; lia].
Qed.

Lemma ranges_between (k : Mapping) :
  In k mapping ->
  range (knot mapping (length mapping - 1)) <= range k <= range (knot mapping 0).
Proof.
  intros Hk. destruct (In_nth _ _ (mkMapping 0 0) Hk) as (i & Hi & <-).
  fold (knot mapping i).
  split; apply ranges_antitone; lia.
Qed.

Lemma segment_between (i : nat) (d : R) :
  (S i < length mapping)%nat ->
  domain (knot mapping i) <= d < domain (knot mapping (S i)) ->
  range (knot mapping (S i)) <= interpolate_between (knot mapping i) (knot mapping (S i)) d
    <= range (knot mapping i).
Proof.
  intros Hi Hd. pose proof (Hranges i Hi) as Hr. unfold interpolate_between.
  set (d0 := domain (knot mapping i)) in *. set (d1 := domain (knot mapping (S i))) in *.
  set (r0 := range (knot mapping i)) in *. set (r1 := range (knot mapping (S i))) in *.
  assert (Hw : 0 < d1 - d0) by lra.
  set (w := (d - d0) / (d1 - d0)).
  assert (Hw01 : 0 <= w < 1).
  { unfold w. split.
    - apply Rmult_le_pos; [lra | left; apply Rinv_0_lt_compat, Hw].
    - apply (Rmult_lt_reg_r (d1 - d0)); [exact Hw |]. field_simplify; lra. }
  replace (r0 + (r1 - r0) * (d - d0) / (d1 - d0)) with (r0 + (r1 - r0) * w)
    by (unfold w; field; lra).
  nra.
Qed.

(** On an ordered table whose ranges do not increase, the interpolation
    does not increase either. *)
Lemma interpolation_antitone (d d' r r' : R) :
  d <= d' ->
  linearInterpolationMapping mapping d = Some r ->
  linearInterpolationMapping mapping d' = Some r' ->
  r' <= r.
Proof.
  intros Hdd Hr Hr'.
  assert (Hne : mapping <> []) by (intros ->; discriminate).
  assert (Hbound : forall q s, linearInterpolationMapping mapping q = Some s ->
            range (knot mapping (length mapping - 1)) <= s <= range (knot mapping 0)).
  { intros q s Hs.
    destruct (interpolation_bounded mapping q _ _ Hne ranges_between) as (s' & Es & Hb).
    congruence. }
  destruct (interpolation_cases mapping d Hne)
    as [[Ha E] | [(Ha & Hb & E) | (Hc & i & Hi & Hbi & E)]].
  - assert (r = range (knot mapping 0)) by congruence. subst r.
    apply (Hbound d' r' Hr').
  - destruct (interpolation_cases mapping d' Hne)
      as [[Ha' E'] | [(Ha' & Hb' & E') | ((_ & Hc') & _)]]; [lra | | lra].
    rewrite E in Hr. rewrite E' in Hr'. injection Hr as <-. injection Hr' as <-. lra.
  - destruct (interpolation_cases mapping d' Hne)
      as [[Ha' E'] | [(Ha' & Hb' & E') | (Hc' & j & Hj & Hbj & E')]]; [lra | |].
    + assert (r' = range (knot mapping (length mapping - 1))) by congruence. subst r'.
      apply (Hbound d r Hr).
    + assert (r = interpolate_between (knot mapping i) (knot mapping (S i)) d)
        by congruence.
      assert (r' = interpolate_between (knot mapping j) (knot mapping (S j)) d')
        by congruence.
      subst r r'.
      destruct (Nat.lt_trichotomy i j) as [Hlt | [<- | Hgt]].
      * apply Rle_trans with (range (knot mapping j));
          [apply segment_between; assumption |].
        apply Rle_trans with (range (knot mapping (S i)));
          [apply ranges_antitone; lia | apply segment_between; assumption].
      * pose proof (Hranges i Hi) as Hri. unfold interpolate_between.
        set (d0 := domain (knot mapping i)) in *.
        set (d1 := domain (knot mapping (S i))) in *.
        set (r0 := range (knot mapping i)) in *.
        set (r1 := range (knot mapping (S i))) in *.
        assert (Hw : 0 < / (d1 - d0)) by (apply Rinv_0_lt_compat; lra).
        unfold Rdiv.
        assert ((r1 - r0) * (d' - d0) <= (r1 - r0) * (d - d0)) by nra.
        nra.
      * pose proof (knots_monotone mapping Hsorted (S j) i ltac:(lia)). lra.
Qed.

End Antitone.

(** X13.  Gravity and air density never increase with altitude: between
    any two altitudes the higher one has the gravity and the density that
    are at most those of the lower one. *)
Theorem gravity_density_decrease (altitude altitude' : R) :
  altitude <= altitude' ->
  (exists g g', gravityFromAltitude altitude = Some g /\
     gravityFromAltitude altitude' = Some g' /\ g' <= g) /\
  (exists rho rho', densityFromAltitude altitude = Some rho /\
     densityFromAltitude altitude' = Some rho' /\ rho' <= rho).
Proof.
  intros Hle. split.
  - destruct (gravityFromAltitude_bounds altitude) as (g & Eg & _).
    destruct (gravityFromAltitude_bounds altitude') as (g' & Eg' & _).
    exists g, g'. split; [exact Eg |]. split; [exact Eg' |].
    apply (interpolation_antitone gravityMapping gravityMapping_sorted)
      with (d := altitude) (d' := altitude'); trivial.
    intros i Hi. simpl in Hi.
    do 20 (destruct i as [| i]; [simpl; lra |]). lia.
  - destruct (densityFromAltitude_nonneg altitude) as (g & Eg & _).
    destruct (densityFromAltitude_nonneg altitude') as (g' & Eg' & _).
    exists g, g'. split; [exact Eg |]. split; [exact Eg' |].
    apply (interpolation_antitone densityMapping densityMapping_sorted)
      with (d := altitude) (d' := altitude'); trivial.
    intros i Hi. simpl in Hi.
    do 20 (destruct i as [| i]; [simpl; lra |]). lia.
Qed.

(** Sea level against 200 m. *)
Lemma gravity_density_decrease_witness :
  exists g g', gravityFromAltitude 0 = Some g /\
    gravityFromAltitude 200 = Some g' /\ g' <= g.
Proof.
  destruct (gravity_density_decrease 0 200) as [H _]; [lra | exact H].
Defined.

Lemma lookup_below (mapping : list Mapping) (d : R) :
  mapping <> [] -> d <= domain (knot mapping 0) ->
  linearInterpolationMapping mapping d = Some (range (knot mapping 0)).
Proof.
  intros Hne Hd.
  destruct (interpolation_cases mapping d Hne)
    as [[_ E] | [(H & _) | ((H & _) & _)]]; [exact E | lra | lra].
Qed.

Lemma lookup_above (mapping : list Mapping) (d : R) :
  mapping <> [] ->
  domain (knot mapping 0) < domain (knot mapping (length mapping - 1)) ->
  domain (knot mapping (length mapping - 1)) <= d ->
  linearInterpolationMapping mapping d = Some (range (knot mapping (length mapping - 1))).
Proof.
  intros Hne H0 Hd.
  destruct (interpolation_cases mapping d Hne)
    as [[H _] | [(_ & _ & E) | ((_ & H) & _)]]; [lra | exact E | lra].
Qed.

Ltac table_bounds :=
  apply interpolation_bounded; [discriminate |];
  let k := fresh "k" in let Hk := fresh "Hk" in
  intros k Hk; simpl in Hk;
  repeat (destruct Hk as [<- | Hk]; [simpl; lra |]); contradiction.

(** X14.  The atmospheric model is total and clamped: every lookup returns
    a value between the least and the greatest entry of its table, altitudes
    at or below sea level give the sea-level values, altitudes of 80 km and
    more give the 80 km values, and [machFromSpeed] never fails its
    assertion: the speed of sound is at least 269 m/s. *)
Theorem atmosphere_total (altitude speed mach : R) :
  (exists g, gravityFromAltitude altitude = Some g /\ 9.564 <= g <= 9.807) /\
  (exists rho, densityFromAltitude altitude = Some rho /\ 0.0000185 <= rho <= 1.225) /\
  (exists c, speedSoundFromAltitude altitude = Some c /\ 269 <= c <= 340 /\
     machFromSpeed speed altitude = Some (speed / c)) /\
  (exists cd, dragFromMach mach = Some cd /\ 0 <= cd <= 0.4483) /\
  (altitude <= 0 ->
     gravityFromAltitude altitude = Some 9.807 /\
     densityFromAltitude altitude = Some 1.225 /\
     speedSoundFromAltitude altitude = Some 340.0) /\
  (80000 <= altitude ->
     gravityFromAltitude altitude = Some 9.564 /\
     densityFromAltitude altitude = Some 0.0000185 /\
     speedSoundFromAltitude altitude = Some 269.0).
Proof.
  split; [apply gravityFromAltitude_bounds |].
  split; [unfold densityFromAltitude; table_bounds |].
  split.
  { destruct (speedSoundFromAltitude_positive altitude) as (c & Ec & Hc).
    exists c. split; [exact Ec |]. split; [exact Hc |].
    unfold machFromSpeed. rewrite Ec. simpl.
    destruct (Rgt_dec' c 0.0) as [H | H]; [reflexivity | lra]. }
  split; [apply dragFromMach_nonneg |].
  split.
  - intros H. repeat split; apply lookup_below; try discriminate; simpl; lra.
  - intros H. repeat split; apply lookup_above; try discriminate; simpl; lra.
Qed.

(** The shell at 827 m/s, 1000 m up: Mach 827 / 336. *)
Lemma atmosphere_total_witness :
  gravityFromAltitude (- 10) = Some 9.807 /\
  exists c, machFromSpeed 827 1000 = Some (827 / c) /\ 269 <= c <= 340.
Proof.
  destruct (atmosphere_total (- 10) 0 0) as (_ & _ & _ & _ & Hlow & _).
  split; [apply Hlow; lra |].
  destruct (atmosphere_total 1000 827 0) as (_ & _ & (c & _ & Hc & Hm) & _).
  exists c. split; [exact Hm | exact Hc].
Defined.





(** ** Projectile: states and statistics *)

Lemma Reachable_active_nonempty (p : Projectile) :
  Reachable p -> isActive p = true -> flightPath p <> [].
Proof.
  induction 1 as [| m r | p _ _ | p p' position angle mv time _ _ Hf
                  | p p' tm _ IH Ha | p m _ IH | p r _ IH]; simpl; try discriminate.
  - destruct (fire_inversion _ _ _ _ _ _ Hf) as (_ & _ & ->). discriminate.
  - destruct (advance_inversion _ _ _ Ha) as [[-> _] | (_ & _ & _ & a & _ & ->)];
      [exact IH |].
    simpl. intros _. destruct (flightPath p); discriminate.
  - exact IH.
  - exact IH.
Qed.

(** X17.  In every state the public interface produces, an active
    projectile has a trajectory, so [isFlying] is the active flag; the
    timestamps of the trajectory increase; and an inactive projectile either
    has no trajectory or has its last sample below the ground. *)
Theorem Reachable_flying (p : Projectile) :
  Reachable p ->
  Projectile_isFlying p = isActive p /\
  (isActive p = true -> flightPath p <> []) /\
  increasingTimes (flightPath p) /\
  (isActive p = false ->
     flightPath p = [] \/
     Position_getMetersY (Projectile_getPosition p) < 0).
Proof.
  intros Hr.
  destruct (Reachable_invariant p Hr) as [Hsorted Hidle].
  pose proof (Reachable_active_nonempty p Hr) as Hne.
  split; [| split; [exact Hne | split; [exact Hsorted |]]].
  - unfold Projectile_isFlying. destruct (isActive p); [| reflexivity].
    specialize (Hne eq_refl). destruct (flightPath p); [contradiction | reflexivity].
  - intros Hi. destruct (Hidle Hi) as [H | H]; [now left | right].
    unfold Projectile_getPosition, Position_getMetersY.
    destruct (flightPath p) eqn:E; [simpl in H |]; simpl; [| exact H].
    unfold back in H. simpl in H. lra.
Qed.

(** The shell after its impact. *)
Lemma Reachable_flying_witness :
  Projectile_isFlying impactedShell = false /\
  increasingTimes (flightPath impactedShell).
Proof.
  destruct (Reachable_flying impactedShell impactedShell_reachable) as (H1 & _ & H3 & _).
  split; [exact H1 | exact H3].
Defined.

Lemma sorted_front_back (path : list PositionVelocityTime) :
  increasingTimes path -> (2 <= length path)%nat -> t (front path) < t (back path).
Proof.
  unfold increasingTimes, front, back. intros Hs Hlen.
  apply Sorted_StronglySorted in Hs; [| intros a b c; apply Rlt_trans].
  destruct path as [| s0 tl]; [simpl in Hlen; lia |].
  destruct tl as [| s1 rest]; [simpl in Hlen; lia |].
  assert (Hin : In (last (s0 :: s1 :: rest) PositionVelocityTime_default) (s1 :: rest)).
  { change (last (s0 :: s1 :: rest) PositionVelocityTime_default)
      with (last (s1 :: rest) PositionVelocityTime_default).
    destruct (exists_last (l := s1 :: rest)) as (l' & a & E); [discriminate |].
    rewrite E, last_last. apply in_or_app. right. now left. }
  inversion Hs as [| ? ? _ Hall]; subst.
  rewrite Forall_forall in Hall. apply Hall.
  apply (in_map t (s1 :: rest)), Hin.
Qed.

Lemma maxAltitude_fold (path : list PositionVelocityTime) (m : R) :
  let r := fold_left (fun maxAlt pvt => Rmax maxAlt (Position_getMetersY (pos pvt)))
                     path m in
  m <= r /\
  (forall s, In s path -> Position_getMetersY (pos s) <= r) /\
  (r = m \/ exists s, In s path /\ r = Position_getMetersY (pos s)).
Proof.
  revert m. induction path as [| s0 rest IH]; intros m; simpl.
  - split; [lra |]. split; [contradiction | now left].
  - destruct (IH (Rmax m (Position_getMetersY (pos s0)))) as (H1 & H2 & H3).
    pose proof (Rmax_l m (Position_getMetersY (pos s0))) as Hl.
    pose proof (Rmax_r m (Position_getMetersY (pos s0))) as Hr.
    split; [lra |]. split.
    + intros s [<- | Hs]; [lra | now apply H2].
    + destruct H3 as [H3 | (s & Hs & H3)].
      * rewrite H3. unfold Rmax. destruct (Rle_dec m _); [right | now left].
        exists s0. split; [now left | reflexivity].
      * right. exists s. split; [now right | exact H3].
Qed.

Lemma maxAltitude_fold_app (path : list PositionVelocityTime)
    (s : PositionVelocityTime) (m : R) :
  fold_left (fun maxAlt pvt => Rmax maxAlt (Position_getMetersY (pos pvt)))
            (path ++ [s]) m =
  Rmax (fold_left (fun maxAlt pvt => Rmax maxAlt (Position_getMetersY (pos pvt)))
                  path m)
       (Position_getMetersY (pos s)).
Proof. now rewrite fold_left_app. Qed.

(** X18.  [getMaxAltitude] is the greatest y of the trajectory, floored at
    zero: it is not negative, no sample is higher, it is 0 or the y of some
    sample, it is at least the current altitude, and no call of [advance]
    lowers it. *)
Theorem maxAltitude_spec (p : Projectile) :
  0 <= Projectile_getMaxAltitude p /\
  (forall s, In s (flightPath p) ->
     Position_getMetersY (pos s) <= Projectile_getMaxAltitude p) /\
  (Projectile_getMaxAltitude p = 0 \/
   exists s, In s (flightPath p) /\
     Projectile_getMaxAltitude p = Position_getMetersY (pos s)) /\
  Projectile_getCurrentAltitude p <= Projectile_getMaxAltitude p /\
  (forall simulationTime p',
     Projectile_advance simulationTime p = Some p' ->
     Projectile_getMaxAltitude p <= Projectile_getMaxAltitude p').
Proof.
  unfold Projectile_getMaxAltitude.
  destruct (maxAltitude_fold (flightPath p) 0.0) as (H1 & H2 & H3). cbv zeta in *.
  split; [lra |]. split; [exact H2 |]. split; [| split].
  - destruct H3 as [-> | H3]; [left; lra | now right].
  - unfold Projectile_getCurrentAltitude.
    destruct (flightPath p) as [| s0 rest] eqn:E; simpl negb; cbv iota; [simpl; lra |].
    apply Rmax_lub; [lra |]. apply H2. unfold back.
    destruct (exists_last (l := s0 :: rest) ltac:(discriminate)) as (l' & a & ->).
    rewrite last_last. apply in_or_app. right. now left.
  - intros simulationTime p' Ha.
    destruct (advance_inversion _ _ _ Ha) as [[-> _] | (_ & _ & _ & a & _ & ->)];
      [lra |].
    simpl. rewrite maxAltitude_fold_app. apply Rmax_l.
Qed.

(** X19.  Flight statistics: on an empty trajectory every statistic is
    zero; flight time and total distance are zero with fewer than two
    samples; distance and speed are never negative; and in every reachable
    state the flight time is positive as soon as there are two samples. *)
Theorem flight_statistics (p : Projectile) :
  (flightPath p = [] ->
     Projectile_getFlightTime p = 0 /\ Projectile_getTotalDistance p = 0 /\
     Projectile_getCurrentSpeed p = 0 /\ Projectile_getMaxAltitude p = 0 /\
     Projectile_getPosition p = Position_default /\
     Projectile_getVelocity p = Velocity_default) /\
  ((length (flightPath p) < 2)%nat ->
     Projectile_getFlightTime p = 0 /\ Projectile_getTotalDistance p = 0) /\
  0 <= Projectile_getTotalDistance p /\
  0 <= Projectile_getCurrentSpeed p /\
  (Reachable p -> (2 <= length (flightPath p))%nat ->
     0 < Projectile_getFlightTime p).
Proof.
  unfold Projectile_getFlightTime, Projectile_getTotalDistance,
    Projectile_getCurrentSpeed, Projectile_getMaxAltitude, Projectile_getPosition,
    Projectile_getVelocity.
  split; [| split; [| split; [| split; [| ]]]].
  - intros ->. simpl. repeat split; lra.
  - intros Hlen. apply Nat.ltb_lt in Hlen. rewrite Hlen. split; lra.
  - destruct (length (flightPath p) <? 2)%nat; [lra | apply Rabs_pos].
  - destruct (flightPath p); simpl; [lra | apply sqrt_pos].
  - intros Hr Hlen.
    destruct (Nat.ltb_spec (length (flightPath p)) 2) as [H | _]; [lia |].
    destruct (Reachable_invariant p Hr) as [Hs _].
    pose proof (sorted_front_back _ Hs Hlen). lra.
Qed.

(** The impacted shell flew for one second. *)
Lemma flight_statistics_witness : 0 < Projectile_getFlightTime impactedShell.
Proof.
  destruct (flight_statistics impactedShell) as (_ & _ & _ & _ & H).
  apply H; [exact impactedShell_reachable | simpl; lia].
Defined.

(** X20.  Impact is final for [advance]: on an inactive projectile every run
    of [advance] calls returns the state as it is; and a run of [n] calls
    that returns has added at most [n] samples and removed none. *)
Theorem advances_bounded (p : Projectile) (times : list R) :
  (isActive p = false -> advances times p = Some p) /\
  (forall p', advances times p = Some p' ->
     exists added, flightPath p' = flightPath p ++ added /\
       (length added <= length times)%nat /\
       mass p' = mass p /\ radius p' = radius p).
Proof.
  split.
  - intros Hi. induction times as [| tm rest IH]; simpl; [reflexivity |].
    rewrite advance_noop by (now left). simpl. exact IH.
  - revert p. induction times as [| tm rest IH]; intros p p' H; simpl in H.
    + injection H as <-. exists []. rewrite app_nil_r. simpl. repeat split; lia.
    + destruct (Projectile_advance tm p) as [p1 |] eqn:E; simpl in H; [| discriminate].
      destruct (IH p1 p' H) as (added' & Ep & Hl & Hm & Hr).
      destruct (advance_prefix _ _ _ E) as (suffix & Es & Hs).
      assert (Hmr : mass p1 = mass p /\ radius p1 = radius p).
      { destruct (advance_inversion _ _ _ E) as [[-> _] | (_ & _ & _ & a & _ & ->)];
          now split. }
      exists (suffix ++ added'). rewrite Ep, Es, app_assoc, length_app. simpl.
      repeat split; try lia; destruct Hmr; congruence.
Qed.

(** The impacted shell ignores three more steps. *)
Lemma advances_bounded_witness :
  advances [2; 3; 4] impactedShell = Some impactedShell.
Proof.
  destruct (advances_bounded impactedShell [2; 3; 4]) as [H _].
  apply H. reflexivity.
Defined.



(** ** Howitzer: setters *)






(** X23.  The howitzer can always fire once it could: [setMuzzleVelocity]
    keeps the old velocity on an argument that is not positive, and
    [rotate], [raise], [recordFiring] and the elevation setters leave the
    muzzle velocity alone; [reset] restores 827 m/s and 45 degrees, sets the
    round count to 0 and keeps the position; [recordFiring] stores the time
    and, short of the overflow of the [int], counts one more round. *)
Theorem Howitzer_canFire_preserved (h : Howitzer) (value : R) :
  (Howitzer_canFire h = true ->
     Howitzer_canFire (Howitzer_setMuzzleVelocity value h) = true /\
     Howitzer_canFire (Howitzer_rotate value h) = true /\
     Howitzer_canFire (Howitzer_raise value h) = true /\
     Howitzer_canFire (Howitzer_recordFiring value h) = true /\
     Howitzer_canFire (Howitzer_setElevationDegrees value h) = true) /\
  (value <= 0 ->
     Howitzer_getMuzzleVelocity (Howitzer_setMuzzleVelocity value h)
       = Howitzer_getMuzzleVelocity h) /\
  (0 < value ->
     Howitzer_getMuzzleVelocity (Howitzer_setMuzzleVelocity value h) = value) /\
  (Howitzer_canFire (Howitzer_reset h) = true /\
   Howitzer_getMuzzleVelocity (Howitzer_reset h) = 827 /\
   elevationDegrees (Howitzer_reset h) = 45 /\
   Howitzer_getPosition (Howitzer_reset h) = Howitzer_getPosition h /\
   Howitzer_getRoundsFired (Howitzer_reset h) = 0%Z) /\
  (Howitzer_getLastFireTime (Howitzer_recordFiring value h) = value /\
   ((- 2147483648 <= roundsFired h < 2147483647)%Z ->
      Howitzer_getRoundsFired (Howitzer_recordFiring value h)
        = (roundsFired h + 1)%Z)).
Proof.
  assert (Hmv_rotate : forall d g, muzzleVelocity (Howitzer_rotate d g) = muzzleVelocity g).
  { intros d g. unfold Howitzer_rotate.
    repeat match goal with |- context [if ?c then _ else _] => destruct c end;
      reflexivity. }
  assert (Hmv_constrain : forall g,
            muzzleVelocity (Howitzer_constrainElevation g) = muzzleVelocity g).
  { intros g. unfold Howitzer_constrainElevation.
    repeat match goal with |- context [if ?c then _ else _] => destruct c end;
      reflexivity. }
  split; [| split; [| split; [| split]]].
  - unfold Howitzer_canFire. intros Hc. apply Rltb_true in Hc.
    split; [| split; [| split; [| split]]]; apply Rltb_true.
    + unfold Howitzer_setMuzzleVelocity. simpl.
      destruct (Rgt_dec' value 0.0); lra.
    + now rewrite Hmv_rotate.
    + now rewrite Howitzer_raise_rotate, Hmv_rotate.
    + exact Hc.
    + unfold Howitzer_setElevationDegrees. now rewrite Hmv_constrain.
  - intros Hv. unfold Howitzer_getMuzzleVelocity, Howitzer_setMuzzleVelocity. simpl.
    destruct (Rgt_dec' value 0.0); [lra | reflexivity].
  - intros Hv. unfold Howitzer_getMuzzleVelocity, Howitzer_setMuzzleVelocity. simpl.
    destruct (Rgt_dec' value 0.0); [reflexivity | lra].
  - unfold Howitzer_canFire, Howitzer_getMuzzleVelocity, Howitzer_reset,
      Howitzer_getPosition, Howitzer_getRoundsFired, DEFAULT_MUZZLE_VELOCITY,
      DEFAULT_ELEVATION_ANGLE. simpl.
    split; [apply Rltb_true; lra |]. split; [lra |].
    split; [| split; reflexivity].
    unfold elevationDegrees, Howitzer_getElevation. simpl.
    rewrite setDegrees_small by lra. rewrite getDegrees_small by lra. lra.
  - split; [reflexivity |]. intros Hn.
    unfold Howitzer_getRoundsFired, Howitzer_recordFiring, wrapInt. simpl.
    rewrite Z.mod_small; lia.
Qed.

(** The default howitzer, given a muzzle velocity of -1. *)
Lemma Howitzer_canFire_preserved_witness :
  Howitzer_canFire (Howitzer_setMuzzleVelocity (- 1) Howitzer_default) = true /\
  Howitzer_getRoundsFired (Howitzer_recordFiring 0 Howitzer_default) = 1%Z.
Proof.
  destruct (Howitzer_canFire_preserved Howitzer_default (- 1)) as ((H & _) & _).
  - apply Rltb_true. simpl. unfold DEFAULT_MUZZLE_VELOCITY. lra.
  - split; [exact H |].
    destruct (Howitzer_canFire_preserved Howitzer_default 0) as (_ & _ & _ & _ & _ & Hr).
    apply Hr. simpl. lia.
Defined.

(** ** Simulator *)

Section SimulatorProperties.

Context {Ground : Type}.


Lemma nth_setAt (path : list Position) (i k : nat) (value : Position) :
  (i < length path)%nat ->
  nth k (setAt path i value) Position_default =
    if (k =? i)%nat then value else nth k path Position_default.
Proof.
  intros Hi. unfold setAt. apply Nat.ltb_lt in Hi. rewrite Hi.
  apply Nat.ltb_lt in Hi.
  destruct (Nat.eqb_spec k i) as [-> | Hne].
  - rewrite app_nth2; rewrite length_firstn, Nat.min_l by lia; [| lia].
    now rewrite Nat.sub_diag.
  - destruct (Nat.lt_ge_cases k i) as [Hlt | Hge].
    + rewrite app_nth1 by (rewrite length_firstn; lia).
      rewrite <- (firstn_skipn i path) at 2.
      now rewrite app_nth1 by (rewrite length_firstn; lia).
    + rewrite app_nth2; rewrite length_firstn, Nat.min_l by lia; [| lia].
      destruct (k - i)%nat as [| m] eqn:E; [lia |]. cbn [nth].
      rewrite nth_skipn. f_equal. lia.
Qed.

Lemma length_setAt (path : list Position) (i : nat) (value : Position) :
  length (setAt path i value) = length path.
Proof.
  unfold setAt. destruct (Nat.ltb_spec i (length path)) as [Hi | Hi]; [| reflexivity].
  rewrite length_app, length_firstn. cbn [length]. rewrite length_skipn. lia.
Qed.

Lemma shiftTrail_spec (i : nat) (path : list Position) :
  (i < length path)%nat ->
  length (shiftTrail i path) = length path /\
  forall k,
    nth k (shiftTrail i path) Position_default =
      if (k =? 0)%nat then nth 0 path Position_default
      else if (k <=? i)%nat then nth (k - 1) path Position_default
      else nth k path Position_default.
Proof.
  revert path. induction i as [| j IH]; intros path Hi; simpl.
  - split; [reflexivity |]. intros k.
    destruct (Nat.eqb_spec k 0) as [-> | Hk]; [reflexivity |].
    destruct (Nat.leb_spec k 0); [lia | reflexivity].
  - destruct (IH (setAt path (S j) (nth j path Position_default)))
      as [Hlen Hnth]; [rewrite length_setAt; lia |].
    rewrite length_setAt in Hlen. split; [exact Hlen |].
    intros k. rewrite Hnth, !nth_setAt by lia.
    destruct (Nat.eqb_spec k 0) as [-> | Hk]; [reflexivity |].
    destruct (Nat.leb_spec k j) as [Hkj | Hkj].
    + destruct (Nat.eqb_spec (k - 1) (S j)); [lia |].
      destruct (Nat.leb_spec k (S j)); [reflexivity | lia].
    + destruct (Nat.eqb_spec k (S j)) as [-> | Hne].
      * destruct (Nat.leb_spec (S j) (S j)); [| lia].
        f_equal. lia.
      * destruct (Nat.leb_spec k (S j)); [lia | reflexivity].
Qed.

Lemma clearTrail_spec (path : list Position) :
  length path = TRAIL_LENGTH -> clearTrail path = repeat Position_default TRAIL_LENGTH.
Proof.
  intros Hlen. unfold clearTrail.
  assert (Hgen : forall n p, (n <= length p)%nat ->
            length (fold_left (fun q i => setAt q i Position_default) (seq 0 n) p)
              = length p /\
            forall k, nth k (fold_left (fun q i => setAt q i Position_default) (seq 0 n) p)
                        Position_default =
                      if (k <? n)%nat then Position_default
                      else nth k p Position_default).
  { induction n as [| n IH]; intros p Hn.
    - simpl. split; [reflexivity |]. intros k. reflexivity.
    - rewrite seq_S, fold_left_app. simpl.
      destruct (IH p ltac:(lia)) as [Hl Hk].
      rewrite length_setAt. split; [exact Hl |].
      intros k. rewrite nth_setAt by lia. rewrite Hk.
      destruct (Nat.eqb_spec k n) as [-> | Hne].
      + destruct (Nat.ltb_spec n (S n)); [reflexivity | lia].
      + destruct (Nat.ltb_spec k n); destruct (Nat.ltb_spec k (S n));
          try reflexivity; lia. }
  destruct (Hgen TRAIL_LENGTH path ltac:(lia)) as [Hl Hk].
  apply (nth_ext _ _ Position_default Position_default).
  - rewrite Hl, repeat_length. exact Hlen.
  - intros k Hkl. rewrite Hk, nth_repeat.
    destruct (Nat.ltb_spec k TRAIL_LENGTH); [reflexivity | lia].
Qed.

(** X25.  The trail is a shift register of the last 20 positions: on a
    trail of [TRAIL_LENGTH] entries [updateProjectileTrail] keeps the length,
    puts the current position of the projectile first and moves every older
    entry one place back, dropping the last; [clearProjectileTrail] sets all
    entries to the origin. *)
Theorem projectileTrail_shift (sim : Simulator Ground) :
  length (projectilePath sim) = TRAIL_LENGTH ->
  length (projectilePath (Simulator_updateProjectileTrail sim)) = TRAIL_LENGTH /\
  nth 0 (projectilePath (Simulator_updateProjectileTrail sim)) Position_default
    = Projectile_getPosition (projectile sim) /\
  (forall k, (k < TRAIL_LENGTH - 1)%nat ->
     nth (S k) (projectilePath (Simulator_updateProjectileTrail sim)) Position_default
       = nth k (projectilePath sim) Position_default) /\
  projectilePath (Simulator_clearProjectileTrail sim)
    = repeat Position_default TRAIL_LENGTH /\
  projectile (Simulator_updateProjectileTrail sim) = projectile sim.
Proof.
  intros Hlen. unfold Simulator_updateProjectileTrail, Simulator_clearProjectileTrail,
    withProjectilePath.
  cbn [projectilePath projectile].
  destruct (shiftTrail_spec (TRAIL_LENGTH - 1) (projectilePath sim))
    as [Hl Hk]; [rewrite Hlen; unfold TRAIL_LENGTH; lia |].
  split; [now rewrite length_setAt, Hl |].
  split; [rewrite nth_setAt by (rewrite Hl, Hlen; unfold TRAIL_LENGTH; lia);
          reflexivity |].
  split; [| split; [now apply clearTrail_spec | reflexivity]].
  intros k Hklt.
  rewrite nth_setAt by (rewrite Hl, Hlen; unfold TRAIL_LENGTH; lia).
  simpl Nat.eqb. rewrite Hk. simpl Nat.eqb.
  destruct (Nat.leb_spec (S k) (TRAIL_LENGTH - 1)); [| lia].
  f_equal. lia.
Qed.

(** X26.  Arrow keys keep the elevation in range: whatever keys are down,
    [processMovementInput] changes nothing but the howitzer's elevation,
    leaves an elevation inside [0, 85] degrees inside it, and does nothing
    when no key is down. *)
Theorem processMovementInput_inRange (keyRight keyLeft keyUp keyDown : bool)
    (sim : Simulator Ground) :
  elevationInRange (howitzer sim) ->
  let sim' := Simulator_processMovementInput keyRight keyLeft keyUp keyDown sim in
  elevationInRange (howitzer sim') /\
  muzzleVelocity (howitzer sim') = muzzleVelocity (howitzer sim) /\
  position (howitzer sim') = position (howitzer sim) /\
  projectile sim' = projectile sim /\
  isFiring sim' = isFiring sim /\
  (keyRight = false -> keyLeft = false -> keyUp = false -> keyDown = false ->
     sim' = sim).
Proof.
  intros Hin sim'.
  assert (Hrot : forall d g, elevationInRange g ->
            elevationInRange (Howitzer_rotate d g) /\
            muzzleVelocity (Howitzer_rotate d g) = muzzleVelocity g /\
            position (Howitzer_rotate d g) = position g).
  { intros d g _. split; [apply Howitzer_rotate_clamps |].
    unfold Howitzer_rotate.
    repeat match goal with |- context [if ?c then _ else _] => destruct c end;
      now split. }
  assert (Hraise : forall d g, elevationInRange g ->
            elevationInRange (Howitzer_raise d g) /\
            muzzleVelocity (Howitzer_raise d g) = muzzleVelocity g /\
            position (Howitzer_raise d g) = position g).
  { intros d g Hg. rewrite Howitzer_raise_rotate. now apply Hrot. }
  unfold sim', Simulator_processMovementInput. simpl.
  set (c := Angle_getDegrees (Howitzer_getElevation (howitzer sim))).
  set (h0 := howitzer sim) in *.
  set (h1 := if keyRight && Rltb c MAX_ELEVATION_ANGLE then Howitzer_rotate 0.05 h0 else h0).
  set (h2 := if keyLeft && Rltb 0.0 c then Howitzer_rotate (-0.05) h1 else h1).
  set (h3 := if keyUp && Rltb c MAX_ELEVATION_ANGLE then Howitzer_raise 0.003 h2 else h2).
  set (h4 := if keyDown && Rltb 0.0 c then Howitzer_raise (-0.003) h3 else h3).
  assert (H1 : elevationInRange h1 /\ muzzleVelocity h1 = muzzleVelocity h0 /\
               position h1 = position h0).
  { unfold h1. destruct (keyRight && _); [now apply Hrot |].
    split; [exact Hin | now split]. }
  assert (H2 : elevationInRange h2 /\ muzzleVelocity h2 = muzzleVelocity h0 /\
               position h2 = position h0).
  { unfold h2. destruct H1 as (A & B & C).
    destruct (keyLeft && _); [| exact (conj A (conj B C))].
    destruct (Hrot (-0.05) h1 A) as (A' & B' & C'). split; [exact A' | split; congruence]. }
  assert (H3 : elevationInRange h3 /\ muzzleVelocity h3 = muzzleVelocity h0 /\
               position h3 = position h0).
  { unfold h3. destruct H2 as (A & B & C).
    destruct (keyUp && _); [| exact (conj A (conj B C))].
    destruct (Hraise 0.003 h2 A) as (A' & B' & C'). split; [exact A' | split; congruence]. }
  assert (H4 : elevationInRange h4 /\ muzzleVelocity h4 = muzzleVelocity h0 /\
               position h4 = position h0).
  { unfold h4. destruct H3 as (A & B & C).
    destruct (keyDown && _); [| exact (conj A (conj B C))].
    destruct (Hraise (-0.003) h3 A) as (A' & B' & C'). split; [exact A' | split; congruence]. }
  destruct H4 as (A & B & C).
  split; [exact A |]. split; [exact B |]. split; [exact C |].
  split; [reflexivity |]. split; [reflexivity |].
  intros -> -> -> ->. unfold h4, h3, h2, h1, h0. simpl. destruct sim. reflexivity.
Qed.

(** X27.  The hit rate divides only by a positive number of shots: it is 0
    when no shot was attempted and lies in [0, 1] whenever the score is
    between 0 and the number of shots.  [calculateDistance] is the distance
    [Position::getDistanceTo] computes, in either direction. *)
Theorem hitRate_and_distance (sim : Simulator Ground) (pos1 pos2 : Position) :
  ((shotsAttempted sim <= 0)%Z -> Simulator_getHitRate sim = 0) /\
  ((0 <= score sim <= shotsAttempted sim)%Z -> (0 < shotsAttempted sim)%Z ->
     0 <= Simulator_getHitRate sim <= 1 /\
     Simulator_getHitRate sim * IZR (shotsAttempted sim) = IZR (score sim)) /\
  Simulator_calculateDistance pos1 pos2 = Position_getDistanceTo pos1 pos2 /\
  Simulator_calculateDistance pos1 pos2 = Position_getDistanceTo pos2 pos1.
Proof.
  unfold Simulator_getHitRate. split; [| split; [| split]].
  - intros Hs. destruct (Z.gtb_spec (shotsAttempted sim) 0); [lia | lra].
  - intros Hsc Hsh. destruct (Z.gtb_spec (shotsAttempted sim) 0); [| lia].
    assert (Hpos : 0 < IZR (shotsAttempted sim)) by (apply IZR_lt; lia).
    assert (H0 : 0 <= IZR (score sim)) by (apply IZR_le; lia).
    assert (H1 : IZR (score sim) <= IZR (shotsAttempted sim)) by (apply IZR_le; lia).
    split; [| field; lra]. split.
    + apply Rmult_le_pos; [exact H0 | left; now apply Rinv_0_lt_compat].
    + apply (Rmult_le_reg_r (IZR (shotsAttempted sim))); [exact Hpos |].
      unfold Rdiv. rewrite Rmult_assoc, Rinv_l by lra. lra.
  - unfold Simulator_calculateDistance, Position_getDistanceTo,
      Position_getMetersX, Position_getMetersY. f_equal. ring.
  - unfold Simulator_calculateDistance, Position_getDistanceTo,
      Position_getMetersX, Position_getMetersY. reflexivity.
Qed.

End SimulatorProperties.


Lemma projectileTrail_shift_witness :
  nth 0 (projectilePath
           (Simulator_updateProjectileTrail
              (mkSimulator tt Howitzer_default droppedShell Position_default
                           (repeat Position_default TRAIL_LENGTH) 0 true false 0 0)))
      Position_default
    = Projectile_getPosition droppedShell.
Proof.
  destruct (projectileTrail_shift
              (mkSimulator tt Howitzer_default droppedShell Position_default
                           (repeat Position_default TRAIL_LENGTH) 0 true false 0 0))
    as (_ & H & _); [apply repeat_length | exact H].
Defined.

Lemma processMovementInput_inRange_witness :
  elevationInRange
    (howitzer (Simulator_processMovementInput true false false false
       (mkSimulator tt Howitzer_default Projectile_default Position_default
                    (repeat Position_default TRAIL_LENGTH) 0 false false 0 0))).
Proof.
  refine (proj1 (processMovementInput_inRange true false false false
       (mkSimulator tt Howitzer_default Projectile_default Position_default
                    (repeat Position_default TRAIL_LENGTH) 0 false false 0 0) _)).
  cbn [howitzer]. unfold elevationInRange, MIN_ELEVATION_ANGLE, MAX_ELEVATION_ANGLE.
  rewrite Howitzer_default_elevation. lra.
Defined.

(** ** Comparison within a tolerance *)

Lemma within_refl (a eps : R) : 0 < eps -> Rltb (Rabs (a - a)) eps = true.
Proof.
  intros He. apply Rltb_true. replace (a - a) with 0 by ring. now rewrite Rabs_R0.
Qed.

Lemma within_sym (a b eps : R) : Rltb (Rabs (a - b)) eps = Rltb (Rabs (b - a)) eps.
Proof. now rewrite Rabs_minus_sym. Qed.

Lemma within_chain (eps : R) :
  0 < eps ->
  Rltb (Rabs (0 - 0.6 * eps)) eps = true /\
  Rltb (Rabs (0.6 * eps - 1.2 * eps)) eps = true /\
  Rltb (Rabs (0 - 1.2 * eps)) eps = false.
Proof.
  intros He. split; [| split].
  - apply Rltb_true. rewrite Rabs_left by lra. lra.
  - apply Rltb_true. rewrite Rabs_left by lra. lra.
  - apply Rltb_false. rewrite Rabs_left by lra. lra.
Qed.

Lemma norm_within (u w e : R) :
  0 < e -> Rabs u < e -> Rabs w < e -> sqrt (u * u + w * w) < 2 * e.
Proof.
  intros He Hu Hw. apply Rabs_def2 in Hu. apply Rabs_def2 in Hw.
  apply Rsqr_incrst_0; [| apply sqrt_pos | lra].
  rewrite Rsqr_sqrt by (apply Rplus_le_le_0_compat; apply Rle_0_sqr).
  unfold Rsqr.
  assert (Hu2 : u * u < e * e) by nra.
  assert (Hw2 : w * w < e * e) by nra.
  nra.
Qed.

(** X28.  [operator==] of [Angle], [Velocity] and [Position] compares within
    a tolerance: it holds between a value and itself and in both directions
    alike, but it does not chain: there are a, b, c with a == b and b == c
    and a != c.  [isOrigin] and [Velocity::isZero] are [==] against the zero
    vector; two positions that are [==] are less than 2e-10 apart, and an
    acceleration that [isZero] has a magnitude below 2e-10. *)
Theorem tolerant_equality :
  (forall a b : Angle, Angle_eqb a a = true /\ Angle_eqb a b = Angle_eqb b a) /\
  (forall a b : Velocity, Velocity_eqb a a = true /\ Velocity_eqb a b = Velocity_eqb b a) /\
  (forall a b : Position, Position_eqb a a = true /\ Position_eqb a b = Position_eqb b a) /\
  (exists a b c : Angle,
     Angle_eqb a b = true /\ Angle_eqb b c = true /\ Angle_neqb a c = true) /\
  (exists a b c : Velocity,
     Velocity_eqb a b = true /\ Velocity_eqb b c = true /\ Velocity_neqb a c = true) /\
  (exists a b c : Position,
     Position_eqb a b = true /\ Position_eqb b c = true /\ Position_neqb a c = true) /\
  (forall p : Position, Position_isOrigin p = Position_eqb p Position_default) /\
  (forall vel : Velocity, Velocity_isZero vel = Velocity_eqb vel Velocity_default) /\
  (forall p q : Position,
     Position_eqb p q = true -> Position_getDistanceTo p q < 2e-10) /\
  (forall a : Acceleration,
     Acceleration_isZero a = true -> Acceleration_getMagnitude a < 2e-10).
Proof.
  assert (He6 : 0 < 1e-6) by lra. assert (He10 : 0 < 1e-10) by lra.
  destruct (within_chain 1e-6 He6) as (A1 & A2 & A3).
  destruct (within_chain 1e-10 He10) as (B1 & B2 & B3).
  assert (B0 : Rltb (Rabs (0 - 0)) 1e-10 = true) by now apply within_refl.
  split; [| split; [| split]].
  - intros a b. unfold Angle_eqb. split; [now apply within_refl | apply within_sym].
  - intros a b. unfold Velocity_eqb.
    rewrite !within_refl by lra. split; [reflexivity |].
    now rewrite (within_sym (dx a)), (within_sym (dy a)).
  - intros a b. unfold Position_eqb.
    rewrite !within_refl by lra. split; [reflexivity |].
    now rewrite (within_sym (x a)), (within_sym (y a)).
  - split; [| split; [| split; [| split; [| split; [| split]]]]].
    + exists (mkAngle 0), (mkAngle (0.6 * 1e-6)), (mkAngle (1.2 * 1e-6)).
      unfold Angle_neqb, Angle_eqb. simpl. now rewrite A1, A2, A3.
    + exists (mkVelocity 0 0), (mkVelocity (0.6 * 1e-10) 0), (mkVelocity (1.2 * 1e-10) 0).
      unfold Velocity_neqb, Velocity_eqb. simpl. now rewrite B0, B1, B2, B3.
    + exists (mkPosition 0 0), (mkPosition (0.6 * 1e-10) 0), (mkPosition (1.2 * 1e-10) 0).
      unfold Position_neqb, Position_eqb. simpl. now rewrite B0, B1, B2, B3.
    + intros p. unfold Position_isOrigin, Position_eqb, Position_default. simpl.
      now replace (x p - 0.0) with (x p) by lra; replace (y p - 0.0) with (y p) by lra.
    + intros vel. unfold Velocity_isZero, Velocity_eqb, Velocity_default. simpl.
      now replace (dx vel - 0.0) with (dx vel) by lra;
        replace (dy vel - 0.0) with (dy vel) by lra.
    + intros p q. unfold Position_eqb, Position_getDistanceTo.
      rewrite andb_true_iff, !Rltb_true. intros [Hx Hy]. cbv zeta.
      replace 2e-10 with (2 * 1e-10) by lra.
      replace ((x q - x p) * (x q - x p)) with ((x p - x q) * (x p - x q)) by ring.
      replace ((y q - y p) * (y q - y p)) with ((y p - y q) * (y p - y q)) by ring.
      now apply norm_within.
    + intros a. unfold Acceleration_isZero, Acceleration_getMagnitude.
      rewrite andb_true_iff, !Rltb_true. intros [Hx Hy].
      replace 2e-10 with (2 * 1e-10) by lra.
      now apply norm_within.
Qed.

(** ** Acceleration vectors *)



(** ** The fixed elevations of the howitzer *)

(** X30.  The fixed elevations: [setMaxElevation] leaves 85 degrees,
    [setMinElevation] and [setHorizontal] both leave 0 degrees, all inside
    the range [rotate] and [raise] keep; none of them, nor [setPosition],
    touches the muzzle velocity or the round count, and [setPosition]
    changes the position only. *)
Theorem Howitzer_fixed_elevations (h : Howitzer) (pos : Position) :
  elevationDegrees (Howitzer_setMaxElevation h) = MAX_ELEVATION_ANGLE /\
  elevationDegrees (Howitzer_setMinElevation h) = MIN_ELEVATION_ANGLE /\
  Howitzer_setHorizontal h = Howitzer_setMinElevation h /\
  elevationInRange (Howitzer_setMaxElevation h) /\
  elevationInRange (Howitzer_setMinElevation h) /\
  (forall g, In g [Howitzer_setMaxElevation h; Howitzer_setMinElevation h;
                   Howitzer_setHorizontal h; Howitzer_setPosition pos h] ->
     Howitzer_getMuzzleVelocity g = Howitzer_getMuzzleVelocity h /\
     Howitzer_getRoundsFired g = Howitzer_getRoundsFired h /\
     Howitzer_canFire g = Howitzer_canFire h) /\
  Howitzer_getPosition (Howitzer_setPosition pos h) = pos /\
  elevation (Howitzer_setPosition pos h) = elevation h /\
  Howitzer_getPosition (Howitzer_setMaxElevation h) = Howitzer_getPosition h.
Proof.
  assert (Hmax : elevationDegrees (Howitzer_setMaxElevation h) = MAX_ELEVATION_ANGLE).
  { unfold elevationDegrees, Howitzer_setMaxElevation, Howitzer_getElevation,
      MAX_ELEVATION_ANGLE. simpl.
    rewrite setDegrees_small by lra. now rewrite getDegrees_small by lra. }
  assert (Hmin : elevationDegrees (Howitzer_setMinElevation h) = MIN_ELEVATION_ANGLE).
  { unfold elevationDegrees, Howitzer_setMinElevation, Howitzer_getElevation,
      MIN_ELEVATION_ANGLE. simpl.
    rewrite setDegrees_small by lra. now rewrite getDegrees_small by lra. }
  split; [exact Hmax |]. split; [exact Hmin |]. split; [reflexivity |].
  split; [unfold elevationInRange; rewrite Hmax;
          unfold MIN_ELEVATION_ANGLE, MAX_ELEVATION_ANGLE; lra |].
  split; [unfold elevationInRange; rewrite Hmin;
          unfold MIN_ELEVATION_ANGLE, MAX_ELEVATION_ANGLE; lra |].
  split; [| now repeat split].
  intros g Hg. simpl in Hg.
  destruct Hg as [<- | [<- | [<- | [<- | []]]]]; now repeat split.
Qed.
